(** * ID3 decision trees (AP_01/ID3.py): a shallow embedding and its properties

    The Python class [Dataset] is embedded function by function.  Python
    exceptions are values of [exn]; a method that may raise returns a
    [result].  The arithmetic of [entropy] and [information_gain] is
    embedded twice.  In [entropy], [information_gain] and [_id3] the
    Python floats are read as real numbers ([R]): the statements about
    them are statements of exact arithmetic, without rounding.  In the
    module [Double] the same two methods compute with the interpreter's
    numbers, IEEE 754 binary64 ([PrimFloat.float]), operation by
    operation in the order of the code; what rounding does to the exact
    statements is shown there.  The iteration order of a Python [set] of
    strings depends on the interpreter's string hashing and is a
    parameter ([SetOrder]). *)

From Stdlib Require Import String Ascii List Arith Bool Lia Permutation.
From Stdlib Require Import OrderedTypeEx Sorted.
From Stdlib Require Import Reals Lra.
From Stdlib Require ZArith PrimFloat FloatOps Uint63.
Import ListNotations.

Open Scope string_scope.
Open Scope list_scope.

(** ** Python builtins used by ID3.py *)

Module Py.

Inductive exn : Type :=
| KeyError
| ValueError
| TypeError
| ZeroDivisionError.

Inductive result (A : Type) : Type :=
| Ok (a : A)
| Raise (e : exn).
Arguments Ok {A} a.
Arguments Raise {A} e.

Definition bind {A B} (m : result A) (k : A -> result B) : result B :=
  match m with
  | Ok a => k a
  | Raise e => Raise e
  end.

(** [[f(x) for x in l]]: elements are evaluated left to right, the first
    exception aborts the comprehension. *)
Fixpoint mapM {A B} (f : A -> result B) (l : list A) : result (list B) :=
  match l with
  | [] => Ok []
  | x :: xs =>
      bind (f x) (fun y => bind (mapM f xs) (fun ys => Ok (y :: ys)))
  end.

(** A [for] loop with an accumulator whose body may raise. *)
Fixpoint foldM {A S} (f : S -> A -> result S) (l : list A) (s : S)
  : result S :=
  match l with
  | [] => Ok s
  | x :: xs => bind (f s x) (foldM f xs)
  end.

(** [l.count(x)] *)
Definition count (x : string) (l : list string) : nat :=
  count_occ string_dec l x.

(** The keys of [{v: ... for v in l}] in insertion order: each value once,
    at the place of its first occurrence. *)
Fixpoint dict_keys (l : list string) : list string :=
  match l with
  | [] => []
  | x :: xs => x :: filter (fun y => negb (String.eqb y x)) (dict_keys xs)
  end.

(** [x in l] *)
Definition mem (x : string) (l : list string) : bool :=
  existsb (String.eqb x) l.

(** [l.remove(x)]: the first occurrence goes.  The code calls it only
    after [x in l]; on a list without [x] Python raises [ValueError]. *)
Fixpoint remove (x : string) (l : list string) : list string :=
  match l with
  | [] => []
  | y :: ys => if String.eqb x y then ys else y :: remove x ys
  end.

(** [sorted(...)] on strings; the order of Python strings is the
    lexicographic order of their characters. *)
Fixpoint insert_sorted (x : string) (l : list string) : list string :=
  match l with
  | [] => [x]
  | y :: ys => if String.leb x y then x :: y :: ys
               else y :: insert_sorted x ys
  end.

Definition sorted (l : list string) : list string :=
  fold_right insert_sorted [] l.

(** The order in which a [set] built from the list [l] is iterated.  It
    is fixed within one run of the interpreter and lists each distinct
    element once; nothing else is known about it. *)
Record SetOrder : Type := {
  set_iter : list string -> list string;
  set_iter_perm : forall l, Permutation (set_iter l) (dict_keys l)
}.

(** [max(l, key=...)] over items paired with their keys: the first item
    whose key is not exceeded; [ValueError] on an empty sequence. *)
Definition max_by {A K} (gt : K -> K -> bool) (l : list (A * K))
  : result A :=
  match l with
  | [] => Raise ValueError
  | x :: xs =>
      Ok (fst (fold_left
                 (fun best y => if gt (snd y) (snd best) then y else best)
                 xs x))
  end.

(** [a > b] for the keys of [max] in [_id3], in exact arithmetic. *)
Definition Rgtb (a b : R) : bool :=
  if Rlt_dec b a then true else false.

Definition log2 (x : R) : R := (ln x / ln 2)%R.

End Py.

Import Py.

Notation "x <- m ;; k" := (bind m (fun x => k))
  (at level 61, m at next level, right associativity).

Notation "x <-- m ;;; k" :=
  (match m with
   | None => None
   | Some (Raise e) => Some (Raise e)
   | Some (Ok x) => k
   end)
  (at level 61, m at next level, right associativity).

(** ** The data model of ID3.py *)

(** A tuple of the data set: the dictionary built by [populate_data]. *)
Definition Record : Type := list (string * string).

(** [tup[k]] *)
Fixpoint getitem (tup : Record) (k : string) : result string :=
  match tup with
  | [] => Raise KeyError
  | (k', v) :: rest => if String.eqb k k' then Ok v else getitem rest k
  end.

(** The value of a [Node]: a string for attribute and value nodes, the
    dictionary [{'attr': a, 'val': v}] for a label. *)
Inductive NodeValue : Type :=
| Name (s : string)
| Label (attr val : string).

(** The [type] field, one of ['attr'], ['val'], ['label']. *)
Inductive NodeType : Type := attr_t | val_t | label_t.

#[warnings="-register-all"]
Inductive Node : Type :=
| mkNode (value : NodeValue) (type : NodeType) (children : list Node).

Definition value (n : Node) : NodeValue :=
  match n with mkNode v _ _ => v end.
Definition type (n : Node) : NodeType :=
  match n with mkNode _ t _ => t end.
Definition children (n : Node) : list Node :=
  match n with mkNode _ _ c => c end.

Definition is_leaf (n : Node) : bool :=
  match type n with label_t => true | _ => false end.

(** A rule of [derive_ruleset] without its display string: the
    attribute-value pairs and the one-entry dictionary of the conclusion. *)
Definition Rule : Type := (list (NodeValue * NodeValue) * (string * string))%type.

(** The fields of a [Dataset] object. *)
Record Dataset : Type := mkDataset {
  data : list Record;
  headers : list string;
  target : string;
  tree : option Node;
  ruleset : option (list Rule)
}.

(** [[tup[a] for tup in dataset]] *)
Definition column (a : string) (dataset : list Record) : result (list string) :=
  mapM (fun tup => getitem tup a) dataset.

(** [[tup for tup in dataset if tup[a] == val]] *)
Fixpoint select (a val : string) (dataset : list Record) : result (list Record) :=
  match dataset with
  | [] => Ok []
  | tup :: rest =>
      v <- getitem tup a ;;
      sub <- select a val rest ;;
      Ok (if String.eqb v val then tup :: sub else sub)
  end.

Definition leaf (target val : string) : Node :=
  mkNode (Label target val) label_t [].

(** [if attrs and attr in attrs: attrs.remove(attr)] *)
Definition drop_attr (attr : string) (attrs : list string) : list string :=
  match attrs with
  | [] => attrs
  | _ :: _ => if mem attr attrs then remove attr attrs else attrs
  end.

(** ** Entropy and information gain *)

Section ID3.

Variable so : SetOrder.

Open Scope R_scope.

(** The loop of [entropy] over the distinct values of a column, in exact
    arithmetic; [Double.entropy_values] is the loop in the interpreter's
    arithmetic. *)
Definition entropy_values (values : list string) : R :=
  fold_left
    (fun entropy val =>
       let p := INR (count val values) / INR (length values) in
       entropy - p * log2 p)
    (dict_keys values) 0.

(** [if not dataset: dataset = self.data] *)
Definition or_data (self : Dataset) (dataset : option (list Record))
  : list Record :=
  match dataset with
  | Some (tup :: rest) => tup :: rest
  | _ => data self
  end.

(** [self.entropy(r, dataset=dataset)]: the call without a splitting
    attribute. *)
Definition entropy_target (self : Dataset) (r : string)
    (dataset : option (list Record)) : result R :=
  let dataset := or_data self dataset in
  values <- column r dataset ;;
  Ok (entropy_values values).

(** [self.entropy(r, s, dataset)], in exact arithmetic; [s] is falsy when
    it is [None] or the empty string. *)
Definition entropy (self : Dataset) (r : string) (s : option string)
    (dataset : option (list Record)) : result R :=
  match s with
  | None | Some EmptyString => entropy_target self r dataset
  | Some s =>
      let dataset := or_data self dataset in
      s_values <- column s dataset ;;
      foldM
        (fun entropy val =>
           let p := INR (count val s_values) / INR (length s_values) in
           subset <- select s val dataset ;;
           e <- entropy_target self r (Some subset) ;;
           Ok (entropy + p * e))
        (dict_keys s_values) 0
  end.

(** [self.information_gain(r, s)], in exact arithmetic. *)
Definition information_gain (self : Dataset) (r s : string) : result R :=
  e <- entropy self r None None ;;
  e_s <- entropy self r (Some s) None ;;
  Ok (e - e_s).

Close Scope R_scope.

(** ** The recursive builder *)

(** [max(set(values), key=values.count)] *)
Definition most_common (values : list string) : result string :=
  max_by (fun a b => Nat.ltb b a)
         (map (fun v => (v, count v values)) (set_iter so values)).

(** The loop of [_id3] over the values of the chosen attribute.  [rec]
    is the recursive call; the list [attrs] is the one object shared by
    the caller, this loop and every call below it, so it is threaded
    through as state. *)
Fixpoint branches
    (rec : list string -> list Record -> option (result (Node * list string)))
    (target attr : string) (dataset : list Record)
    (a_values : list string) (root_children : list Node)
    (attrs : list string)
  : option (result (list Node * list string)) :=
  match a_values with
  | [] => Some (Ok (root_children, attrs))
  | val :: rest =>
      subset <-- Some (select attr val dataset) ;;;
      match subset with
      | [] =>
          common <-- Some (subset_t_values <- column target subset ;;
                           most_common subset_t_values) ;;;
          branches rec target attr dataset rest
            (root_children ++ [mkNode (Name val) val_t [leaf target common]])
            attrs
      | _ :: _ =>
          let attrs := drop_attr attr attrs in
          sub <-- rec attrs subset ;;;
          branches rec target attr dataset rest
            (root_children ++ [mkNode (Name val) val_t [fst sub]])
            (snd sub)
      end
  end.

(** [self._id3(target, attrs, dataset)].  The result pairs the returned
    node with the contents of the list [attrs] when the call returns.
    [None] stands for an exhausted recursion budget and is no outcome of
    the Python code. *)
Fixpoint _id3 (fuel : nat) (self : Dataset) (target : string)
    (attrs : list string) (dataset : list Record)
  : option (result (Node * list string)) :=
  match fuel with
  | O => None
  | S fuel =>
      t_values <-- Some (column target dataset) ;;;
      match set_iter so t_values with
      | [val] => Some (Ok (leaf target val, attrs))
      | _ =>
          match attrs with
          | [] =>
              common <-- Some (most_common t_values) ;;;
              Some (Ok (leaf target common, attrs))
          | _ :: _ =>
              attr <-- Some (info_gain <-
                               mapM (fun a =>
                                       g <- information_gain self target a ;;
                                       Ok (a, g)) attrs ;;
                             max_by Rgtb info_gain) ;;;
              a_col <-- Some (column attr dataset) ;;;
              let a_values := sorted (set_iter so a_col) in
              r <-- branches (_id3 fuel self target) target attr dataset
                      a_values [] attrs ;;;
              Some (Ok (mkNode (Name attr) attr_t (fst r), snd r))
          end
      end
  end.

(** [build_tree]: [self.headers] is the list handed to [_id3], so what
    [_id3] leaves in it is what the object holds afterwards.  The
    recursion budget is one more than the number of headers. *)
Definition build_tree (self : Dataset) : option (result (Node * Dataset)) :=
  r <-- _id3 (S (length (headers self))) self (target self)
             (headers self) (data self) ;;;
  Some (Ok (fst r,
            mkDataset (data self) (snd r) (target self) (Some (fst r))
                      (ruleset self))).

(** ** Rules and accuracy *)

(** The generator [paths(node, path)], as the list of what it yields. *)
Fixpoint paths (node : Node) (path : list NodeValue)
  : list (list NodeValue) :=
  match node with
  | mkNode v t cs =>
      (match t with label_t => [path ++ [v]] | _ => [] end)
      ++ flat_map (fun child => paths child (path ++ [v])) cs
  end.

(** The zip of one iterator over [l] with itself: the elements of [l]
    two by two; a last element without a partner is dropped. *)
Fixpoint pairs (l : list NodeValue) : list (NodeValue * NodeValue) :=
  match l with
  | a :: b :: rest => (a, b) :: pairs rest
  | _ => []
  end.

(** One turn of the loop of [derive_ruleset]: [r[:-1]] in pairs and
    [r[-1]], whose fields ['attr'] and ['val'] are read. *)
Definition rule_of_path (r : list NodeValue) : result Rule :=
  match last r (Name "") with
  | Label a v => Ok (pairs (removelast r), (a, v))
  | Name _ => Raise TypeError
  end.

(** [derive_ruleset]; the tree is built first when there is none. *)
Definition derive_ruleset (self : Dataset)
  : option (result (list Rule * Dataset)) :=
  st <-- match tree self with
         | None => build_tree self
         | Some t => Some (Ok (t, self))
         end ;;;
  rules <-- Some (mapM rule_of_path (paths (fst st) [])) ;;;
  Some (Ok (rules,
            mkDataset (data (snd st)) (headers (snd st)) (target (snd st))
                      (tree (snd st)) (Some rules))).

(** [eval_condition]: every comparison is evaluated before [all]. *)
Definition eval_condition (tup : Record)
    (attr_val_pairs : list (NodeValue * NodeValue)) : result bool :=
  results <- mapM (fun av =>
                     match fst av with
                     | Name a =>
                         v <- getitem tup a ;;
                         Ok (match snd av with
                             | Name w => String.eqb v w
                             | Label _ _ => false
                             end)
                     | Label _ _ => Raise TypeError
                     end) attr_val_pairs ;;
  Ok (forallb (fun b => b) results).

(** [[t for t in data if self.eval_condition(t, pairs)]] *)
Fixpoint matching (pairs : list (NodeValue * NodeValue))
    (data : list Record) : result (list Record) :=
  match data with
  | [] => Ok []
  | t :: rest =>
      b <- eval_condition t pairs ;;
      sub <- matching pairs rest ;;
      Ok (if b then t :: sub else sub)
  end.

(** [rule[2][self.target]] on the one-entry dictionary of a rule *)
Definition conclusion (rule : Rule) (target : string) : result string :=
  if String.eqb target (fst (snd rule)) then Ok (snd (snd rule))
  else Raise KeyError.

(** [[t for t in data_subset if t[target] == rule[2][target]]] *)
Fixpoint correct_preds (rule : Rule) (target : string)
    (data_subset : list Record) : result (list Record) :=
  match data_subset with
  | [] => Ok []
  | t :: rest =>
      v <- getitem t target ;;
      w <- conclusion rule target ;;
      sub <- correct_preds rule target rest ;;
      Ok (if String.eqb v w then t :: sub else sub)
  end.

(** The loop of [accuracy] over the rules. *)
Definition total_correct (self : Dataset) (rules : list Rule) : result nat :=
  foldM (fun total rule =>
           data_subset <- matching (fst rule) (data self) ;;
           correct <- correct_preds rule (target self) data_subset ;;
           Ok (total + length correct))
        rules 0.

(** [accuracy]; the division is Python's true division. *)
Definition accuracy (self : Dataset) : option (result (R * Dataset)) :=
  st <-- match ruleset self with
         | None => derive_ruleset self
         | Some rs => Some (Ok (rs, self))
         end ;;;
  total <-- Some (total_correct (snd st) (fst st)) ;;;
  match length (data (snd st)) with
  | O => Some (Raise ZeroDivisionError)
  | S _ => Some (Ok ((INR total / INR (length (data (snd st))))%R, snd st))
  end.

End ID3.

(** ** Entropy and information gain in the interpreter's arithmetic *)

Module Double.

Import ZArith PrimFloat.

(** The float of a Python [int] that is a length or a count; exact below
    [2^53]. *)
Definition of_nat (n : nat) : float :=
  of_uint63 (Uint63.of_Z (Z.of_nat n)).

(** The first [n] binary digits after the point of the binary logarithm
    of [y / 2^320], for [2^320 <= y < 2^321], by repeated squaring; [acc]
    collects the digits. *)
Fixpoint log2_digits (n : nat) (y acc : Z) : Z :=
  match n with
  | O => acc
  | S n =>
      let y2 := Z.shiftr (y * y) 320 in
      if Z.leb (Z.shiftl 2 320) y2
      then log2_digits n (Z.shiftr y2 1) (2 * acc + 1)
      else log2_digits n y2 (2 * acc)
  end.

(** The float nearest to [num / 2^k] for [num > 0], ties to even. *)
Definition nearest (num k : Z) : float :=
  let l := Z.log2 num in
  if Z.leb l 52 then FloatOps.Z.ldexp (of_uint63 (Uint63.of_Z num)) (- k)
  else
    let sh := (l - 52)%Z in
    let m := Z.shiftr num sh in
    let rest := Z.land num (Z.ones sh) in
    let half := Z.shiftl 1 (sh - 1) in
    let m' := if Z.ltb half rest then (m + 1)%Z
              else if Z.eqb half rest
                   then (if Z.odd m then (m + 1)%Z else m)
                   else m in
    FloatOps.Z.ldexp (of_uint63 (Uint63.of_Z m')) (sh - k).

(** [math.log2(x)].  It is the C library's function; it is read as the
    binary logarithm rounded to the nearest float, taken from its first
    128 binary digits.  [ValueError] is the math domain error. *)
Definition log2 (x : float) : result float :=
  match FloatOps.Prim2SF x with
  | SpecFloat.S754_finite false m e =>
      let n := Z.log2 (Zpos m) in
      let digits := log2_digits 128 (Z.shiftl (Zpos m) (320 - n)) 0 in
      Ok match (Z.shiftl (n + e) 128 + digits)%Z with
         | Z0 => zero
         | Zpos num => nearest (Zpos num) 128
         | Zneg num => opp (nearest (Zpos num) 128)
         end
  | SpecFloat.S754_infinity false => Ok infinity
  | SpecFloat.S754_nan => Ok nan
  | _ => Raise ValueError
  end.

(** The loop of [entropy] over the distinct values of a column; the
    [int] [0] the loop starts from acts as the float [0.0]. *)
Definition entropy_values (values : list string) : result float :=
  foldM
    (fun entropy val =>
       let p := div (of_nat (count val values)) (of_nat (length values)) in
       l <- log2 p ;;
       Ok (sub entropy (mul p l)))
    (dict_keys values) zero.

(** [self.entropy(r, dataset=dataset)] *)
Definition entropy_target (self : Dataset) (r : string)
    (dataset : option (list Record)) : result float :=
  let dataset := or_data self dataset in
  values <- column r dataset ;;
  entropy_values values.

(** [self.entropy(r, s, dataset)] *)
Definition entropy (self : Dataset) (r : string) (s : option string)
    (dataset : option (list Record)) : result float :=
  match s with
  | None | Some EmptyString => entropy_target self r dataset
  | Some s =>
      let dataset := or_data self dataset in
      s_values <- column s dataset ;;
      foldM
        (fun entropy val =>
           let p := div (of_nat (count val s_values))
                        (of_nat (length s_values)) in
           subset <- select s val dataset ;;
           e <- entropy_target self r (Some subset) ;;
           Ok (add entropy (mul p e)))
        (dict_keys s_values) zero
  end.

Definition information_gain (self : Dataset) (r s : string) : result float :=
  e <- entropy self r None None ;;
  e_s <- entropy self r (Some s) None ;;
  Ok (sub e e_s).

End Double.

(** ** Loading a table *)

(** A Python string is read as the list of its characters, each with a
    code below 256.  [c.isspace()] for such a character. *)
Definition isspace (c : ascii) : bool :=
  let n := nat_of_ascii c in
  (Nat.leb 9 n && Nat.leb n 13) || (Nat.leb 28 n && Nat.leb n 32)
  || Nat.eqb n 133 || Nat.eqb n 160.

(** [s.rstrip()] *)
Fixpoint rstrip (s : string) : string :=
  match s with
  | EmptyString => EmptyString
  | String c s' =>
      match rstrip s' with
      | EmptyString => if isspace c then EmptyString else String c EmptyString
      | String c' r => String c (String c' r)
      end
  end.

(** [s.split('\t')]; the character of code 9 is the tab. *)
Fixpoint split_tab (s : string) : list string :=
  match s with
  | EmptyString => [EmptyString]
  | String c s' =>
      if Ascii.eqb c (ascii_of_nat 9) then EmptyString :: split_tab s'
      else match split_tab s' with
           | w :: ws => String c w :: ws
           | [] => [String c EmptyString]
           end
  end.

(** [d[k] = v] on a dictionary: the value of an existing key is replaced
    where the key stands, a new key goes to the end. *)
Fixpoint dict_set (k v : string) (d : Record) : Record :=
  match d with
  | [] => [(k, v)]
  | (k', v') :: rest =>
      if String.eqb k k' then (k, v) :: rest
      else (k', v') :: dict_set k v rest
  end.

(** [{k: v for k, v in zip(keys, vals)}] *)
Definition dict_zip (keys vals : list string) : Record :=
  fold_left (fun d kv => dict_set (fst kv) (snd kv) d) (combine keys vals) [].

(** What [populate_data] and [__init__] end with: the fields they leave,
    or the exception they raise ([data_list[0]] on an empty list,
    [None + [None]] and [", ".join(None)] without headers). *)
Inductive populated : Type :=
| Populated (headers : option (list string)) (target : option string)
            (data : list Record)
| PopulateIndexError
| PopulateTypeError.

Inductive constructed : Type :=
| Constructed (self : Dataset)
| InitIndexError
| InitTypeError.

(** [populate_data(data_list)] on a new object with the given
    [_is_formatted]. *)
Definition populate_data (data_list : list string) (is_formatted : bool)
  : populated :=
  match data_list with
  | [] => PopulateIndexError
  | first :: rest =>
      let headers := split_tab (rstrip first) in
      if is_formatted then
        let self_headers := removelast headers in
        let self_target := last headers EmptyString in
        Populated (Some self_headers) (Some self_target)
                  (map (fun tup =>
                          dict_zip (self_headers ++ [self_target])
                                   (split_tab (rstrip tup)))
                       rest)
      else
        match rest with
        | [] => Populated None None []
        | _ :: _ => PopulateTypeError
        end
  end.

(** [Dataset(data_list, is_formatted)]; the [print] at the end joins the
    headers, which raises without headers. *)
Definition Dataset_init (data_list : list string) (is_formatted : bool)
  : constructed :=
  match populate_data data_list is_formatted with
  | Populated (Some headers) (Some target) data =>
      Constructed (mkDataset data headers target None None)
  | Populated _ _ _ => InitTypeError
  | PopulateIndexError => InitIndexError
  | PopulateTypeError => InitTypeError
  end.

(** [run_tree] once the file is read: [f] is what [readlines] returned.
    [print] of the tree writes nothing (its one [print] is commented out);
    the number is the percentage the last line prints. *)
Inductive ran : Type :=
| RanAccuracy (percent : R)
| RanRaised (e : exn)
| RanIndexError
| RanTypeError.

Definition run_tree (so : SetOrder) (f : list string) : option ran :=
  match Dataset_init f true with
  | Constructed d =>
      match build_tree so d with
      | None => None
      | Some (Raise e) => Some (RanRaised e)
      | Some (Ok (_, d)) =>
          match accuracy so d with
          | None => None
          | Some (Raise e) => Some (RanRaised e)
          | Some (Ok (a, _)) => Some (RanAccuracy (a * 100)%R)
          end
      end
  | InitIndexError => Some RanIndexError
  | InitTypeError => Some RanTypeError
  end.

(** * Vocabulary of the properties *)

(** [tup[a] == val] on a record that has the key. *)
Definition has_value (a val : string) (tup : Record) : bool :=
  match getitem tup a with
  | Ok v => String.eqb v val
  | Raise _ => false
  end.

(** The record has a value under the key. *)
Definition has_key (k : string) (tup : Record) : Prop :=
  exists v, getitem tup k = Ok v.

(** [l1] is [l2] with some elements taken out. *)
Inductive subseq : list string -> list string -> Prop :=
| subseq_nil : subseq [] []
| subseq_skip x l1 l2 : subseq l1 l2 -> subseq l1 (x :: l2)
| subseq_keep x l1 l2 : subseq l1 l2 -> subseq (x :: l1) (x :: l2).

(** Every record of [dataset] has a value under every key of [keys]. *)
Definition keyed (keys : list string) (dataset : list Record) : Prop :=
  Forall (fun tup => forall k, In k keys -> has_key k tup) dataset.

(** The invariant of a table, for the records the object holds and the
    records handed to a call. *)
Definition valid (self : Dataset) (target : string) (attrs : list string)
    (dataset : list Record) : Prop :=
  keyed (target :: attrs) (data self) /\ keyed (target :: attrs) dataset.

(** The trees [_id3] can return for the attribute list [attrs] and the
    records [dataset]: a label, or a test of an attribute of [attrs] with
    one value node per value of that attribute in [dataset], each above a
    tree for the records with that value and for attributes left of
    [attrs] once the tested one is removed. *)
Inductive shaped (target : string)
  : list string -> list Record -> Node -> Prop :=
| shaped_leaf attrs dataset val :
    shaped target attrs dataset (leaf target val)
| shaped_test attrs dataset attr a_col a_values cs :
    In attr attrs ->
    column attr dataset = Ok a_col ->
    NoDup a_values ->
    (forall v, In v a_values <-> In v a_col) ->
    shaped_children target attr (remove attr attrs) dataset a_values cs ->
    shaped target attrs dataset (mkNode (Name attr) attr_t cs)
with shaped_children (target : string)
  : string -> list string -> list Record -> list string -> list Node -> Prop :=
| shaped_nil attr attrs dataset :
    shaped_children target attr attrs dataset [] []
| shaped_cons attr attrs dataset val vals sub cs attrs' :
    subseq attrs' attrs ->
    shaped target attrs' (filter (has_value attr val) dataset) sub ->
    shaped_children target attr attrs dataset vals cs ->
    shaped_children target attr attrs dataset (val :: vals)
      (mkNode (Name val) val_t [sub] :: cs).

Scheme shaped_mind := Minimality for shaped Sort Prop
  with shaped_children_mind := Minimality for shaped_children Sort Prop.

(** What a call of [_id3] may end with. *)
Definition id3_post (self : Dataset) (target : string) (attrs : list string)
    (dataset : list Record) (r : result (Node * list string)) : Prop :=
  match r with
  | Ok (tree, attrs') => subseq attrs' attrs /\ shaped target attrs dataset tree
  | Raise KeyError => ~ valid self target attrs dataset
  | Raise ValueError => dataset = [] /\ attrs = []
  | Raise _ => False
  end.

(** The number of attribute tests on the longest path from the node down
    to a label. *)
Fixpoint height (n : Node) : nat :=
  match n with
  | mkNode _ t cs =>
      (match t with attr_t => 1 | _ => 0 end)
      + fold_right (fun c m => Nat.max (height c) m) 0 cs
  end.

(** The recursive call [rec], refused for a list of [n] attributes or more. *)
Definition shorter_only {A} (n : nat) (rec : list string -> list Record -> option A)
  : list string -> list Record -> option A :=
  fun attrs dataset =>
    if Nat.ltb (length attrs) n then rec attrs dataset else None.

(** The attributes a path of the tree tests, as [derive_ruleset] reads
    them off the path: the first components of the pairs of [r[:-1]]. *)
Definition tests (r : list NodeValue) : list NodeValue :=
  map fst (pairs (removelast r)).

(** A set order to run examples with: the order of first insertion. *)
Definition insertion_order : SetOrder :=
  {| set_iter := dict_keys; set_iter_perm := fun l => Permutation_refl _ |}.

(** The condition of the rule [derive_ruleset] makes of a path. *)
Definition path_condition (r : list NodeValue) : list (NodeValue * NodeValue) :=
  pairs (removelast r).

(** How many of the answers are [True]. *)
Definition count_true (bs : list bool) : nat :=
  count_occ Bool.bool_dec bs true.

(** The sum of [f] over a list. *)
Definition Rsum {A} (f : A -> R) (l : list A) : R :=
  fold_right (fun x acc => (f x + acc)%R) 0%R l.

(** The share of the value [v] in a column. *)
Definition freq (v : string) (values : list string) : R :=
  (INR (count v values) / INR (length values))%R.

(** The second components of the pairs whose first component is [val]:
    the target values of the records with the value [val] of the
    splitting attribute. *)
Definition part (val : string) (ps : list (string * string)) : list string :=
  map snd (filter (fun p => String.eqb (fst p) val) ps).

(** ** Example tables *)

(** A fresh [Dataset] object, as [__init__] leaves it. *)
Definition new_dataset (headers : list string) (target : string)
    (data : list Record) : Dataset :=
  mkDataset data headers target None None.

(** One predictor: the file with the lines [A T], [a1 y], [a1 y], [a2 n]. *)
Definition table_one_attr : Dataset :=
  new_dataset ["A"] "T"
    [ [("A", "a1"); ("T", "y")];
      [("A", "a1"); ("T", "y")];
      [("A", "a2"); ("T", "n")] ].

Definition tree_one_attr : Node :=
  mkNode (Name "A") attr_t
    [ mkNode (Name "a1") val_t [leaf "T" "y"];
      mkNode (Name "a2") val_t [leaf "T" "n"] ].

(** Two predictors and a target that is their exclusive or: the file with
    the lines [A B T], [a0 b0 n], [a0 b1 y], [a1 b0 y], [a1 b1 n]. *)
Definition table_xor : Dataset :=
  new_dataset ["A"; "B"] "T"
    [ [("A", "a0"); ("B", "b0"); ("T", "n")];
      [("A", "a0"); ("B", "b1"); ("T", "y")];
      [("A", "a1"); ("B", "b0"); ("T", "y")];
      [("A", "a1"); ("B", "b1"); ("T", "n")] ].

(** The tree [_id3] returns for [table_xor]; [v] is the label the vote
    gives the branch [a1]. *)
Definition tree_xor (v : string) : Node :=
  mkNode (Name "A") attr_t
    [ mkNode (Name "a0") val_t
        [ mkNode (Name "B") attr_t
            [ mkNode (Name "b0") val_t [leaf "T" "n"];
              mkNode (Name "b1") val_t [leaf "T" "y"] ] ];
      mkNode (Name "a1") val_t [leaf "T" v] ].

(** [table_one_attr] after a first [build_tree]. *)
Definition table_one_attr_built : Dataset :=
  mkDataset (data table_one_attr) [] "T" (Some tree_one_attr) None.

(** Written after the specification, not after the code:
    [information_gain(target, split, subset)
     = entropy(target, subset) - conditional_entropy(target, split, subset)],
    with the entropies as [entropy] computes them for the records
    [subset]. *)
Definition spec_information_gain (self : Dataset) (target split : string)
    (subset : list Record) : result R :=
  e <- entropy self target None (Some subset) ;;
  e_s <- entropy self target (Some split) (Some subset) ;;
  Ok (e - e_s)%R.

(** Three predictors: the file with the header line [X Y Z T] and the
    eight lines below. *)
Definition row4 (x y z t : string) : Record :=
  [("X", x); ("Y", y); ("Z", z); ("T", t)].

Definition table_gain : Dataset :=
  new_dataset ["X"; "Y"; "Z"] "T"
    [ row4 "0" "y2" "z1" "y"; row4 "0" "y4" "z1" "y";
      row4 "1" "y3" "z0" "n"; row4 "1" "y4" "z0" "n";
      row4 "2" "y0" "z0" "y"; row4 "2" "y0" "z0" "y";
      row4 "2" "y0" "z1" "n"; row4 "2" "y0" "z1" "n" ].

(** The records of [table_gain] with the value [2] of [X]. *)
Definition subset_2 : list Record :=
  [ row4 "2" "y0" "z0" "y"; row4 "2" "y0" "z0" "y";
    row4 "2" "y0" "z1" "n"; row4 "2" "y0" "z1" "n" ].

Definition tree_Z : Node :=
  mkNode (Name "Z") attr_t
    [ mkNode (Name "z0") val_t [leaf "T" "y"];
      mkNode (Name "z1") val_t [leaf "T" "n"] ].

Definition tree_Y : Node :=
  mkNode (Name "Y") attr_t [ mkNode (Name "y0") val_t [tree_Z] ].

Definition tree_gain : Node :=
  mkNode (Name "X") attr_t
    [ mkNode (Name "0") val_t [leaf "T" "y"];
      mkNode (Name "1") val_t [leaf "T" "n"];
      mkNode (Name "2") val_t [tree_Y] ].

(** ** Vocabulary of the further properties *)

(** The number of nodes of type ['label'] in a tree. *)
Fixpoint labels (n : Node) : nat :=
  match n with
  | mkNode _ t cs =>
      (match t with label_t => 1 | _ => 0 end)
      + fold_right (fun c m => labels c + m) 0 cs
  end.

(** The pair of node values [derive_ruleset] reads for the test
    [attr == val]. *)
Definition test_pair (av : string * string) : NodeValue * NodeValue :=
  (Name (fst av), Name (snd av)).

(** [k in tup] *)
Definition has_keyb (k : string) (tup : Record) : bool :=
  match getitem tup k with
  | Ok _ => true
  | Raise _ => false
  end.

(** Strictly ascending in the order of strings. *)
Definition ascending (l : list string) : Prop :=
  StronglySorted (fun a b => String.ltb a b = true) l.

(** The node [_id3] hangs below a test for the value [val]: a node of type
    ['val'] with the one child [sub]. *)
Definition branch (vs : string * Node) : Node :=
  mkNode (Name (fst vs)) val_t [snd vs].

(** A label without children, or a test whose children are value nodes
    with one child each, in strictly ascending order of their values, above
    trees of the same kind. *)
#[warnings="-register-all"]
Inductive ordered_tree : Node -> Prop :=
| ordered_label a v : ordered_tree (mkNode (Label a v) label_t [])
| ordered_test attr vals subs :
    length subs = length vals ->
    ascending vals ->
    Forall ordered_tree subs ->
    ordered_tree (mkNode (Name attr) attr_t (map branch (combine vals subs))).

(** A line of a file, from its fields, and two files of three lines. *)
Definition TAB : string := String (ascii_of_nat 9) EmptyString.
Definition NL : string := String (ascii_of_nat 10) EmptyString.
Definition tsv_line (fs : list string) : string :=
  String.append (String.concat TAB fs) NL.

Definition lines_one_attr : list string :=
  [tsv_line ["A"; "T"]; tsv_line ["a1"; "y"]; tsv_line ["a2"; "n"; "x"]].

Definition lines_short : list string :=
  [tsv_line ["A"; "T"]; tsv_line ["a1"; "y"]; tsv_line ["a2"]].



(** The file with the header line [A A T]. *)
Definition lines_twice : list string :=
  [tsv_line ["A"; "A"; "T"]; tsv_line ["1"; "1"; "y"];
   tsv_line ["1"; "1"; "y"]; tsv_line ["1"; "1"; "n"]].

(** What the constructor makes of [lines_twice]: the second column takes
    the key of the first. *)
Definition table_twice : Dataset :=
  new_dataset ["A"; "A"] "T"
    [ [("A", "1"); ("T", "y")];
      [("A", "1"); ("T", "y")];
      [("A", "1"); ("T", "n")] ].

Definition tree_twice : Node :=
  mkNode (Name "A") attr_t
    [ mkNode (Name "1") val_t
        [ mkNode (Name "A") attr_t
            [ mkNode (Name "1") val_t [leaf "T" "y"] ] ] ].

(** The fields of a line of the file. *)
Definition fields (line : string) : list string := split_tab (rstrip line).

(** * Properties *)

(** ** Lists, dictionaries and sets *)

Section Builtins.

Lemma dict_keys_In (l : list string) (x : string) :
  In x (dict_keys l) <-> In x l.
Proof.
  induction l as [|y l IH]; simpl; [tauto|].
  rewrite filter_In, IH, negb_true_iff, String.eqb_neq.
  destruct (string_dec y x) as [->|Hne]; [tauto|].
  split; [tauto|]. intros [H|H]; [tauto|].
  right. split; [exact H|]. congruence.
Qed.

Lemma dict_keys_NoDup (l : list string) : NoDup (dict_keys l).
Proof.
  induction l as [|y l IH]; simpl; constructor.
  - rewrite filter_In, String.eqb_refl. simpl. intros [_ H]. discriminate.
  - now apply NoDup_filter.
Qed.

Lemma dict_keys_nil_inv (l : list string) : dict_keys l = [] -> l = [].
Proof. destruct l; simpl; [reflexivity|discriminate]. Qed.

Variable so : SetOrder.

Lemma set_iter_In (l : list string) (x : string) :
  In x (set_iter so l) <-> In x l.
Proof.
  rewrite <- (dict_keys_In l x). split; apply Permutation_in.
  - apply set_iter_perm.
  - apply Permutation_sym, set_iter_perm.
Qed.

Lemma set_iter_NoDup (l : list string) : NoDup (set_iter so l).
Proof.
  eapply Permutation_NoDup; [apply Permutation_sym, set_iter_perm|].
  apply dict_keys_NoDup.
Qed.

Lemma set_iter_nil : set_iter so [] = [].
Proof. apply Permutation_nil, Permutation_sym, (set_iter_perm so []). Qed.

Lemma set_iter_nil_inv (l : list string) : set_iter so l = [] -> l = [].
Proof.
  intros H. apply dict_keys_nil_inv.
  apply Permutation_nil. rewrite <- H. apply set_iter_perm.
Qed.

Lemma insert_sorted_perm (x : string) (l : list string) :
  Permutation (insert_sorted x l) (x :: l).
Proof.
  induction l as [|y l IH]; simpl; [reflexivity|].
  destruct (String.leb x y); [reflexivity|].
  rewrite IH. apply perm_swap.
Qed.

Lemma sorted_perm (l : list string) : Permutation (sorted l) l.
Proof.
  induction l as [|x l IH]; simpl; [reflexivity|].
  rewrite insert_sorted_perm. now constructor.
Qed.

Lemma sorted_set_In (l : list string) (x : string) :
  In x (sorted (set_iter so l)) <-> In x l.
Proof.
  rewrite <- (set_iter_In l x). split; apply Permutation_in.
  - apply sorted_perm.
  - apply Permutation_sym, sorted_perm.
Qed.

Lemma sorted_set_NoDup (l : list string) : NoDup (sorted (set_iter so l)).
Proof.
  eapply Permutation_NoDup; [apply Permutation_sym, sorted_perm|].
  apply set_iter_NoDup.
Qed.

End Builtins.

(** ** Columns and selections *)

Lemma column_cons_inv a tup rest vs :
  column a (tup :: rest) = Ok vs ->
  exists v vs', getitem tup a = Ok v /\ column a rest = Ok vs' /\ vs = v :: vs'.
Proof.
  unfold column. simpl. destruct (getitem tup a) as [v|e]; simpl; [|discriminate].
  destruct (mapM _ rest) as [vs'|e]; simpl; [|discriminate].
  intros [= <-]. eauto.
Qed.

Lemma column_length a dataset vs :
  column a dataset = Ok vs -> length vs = length dataset.
Proof.
  revert vs. induction dataset as [|tup rest IH]; intros vs H.
  - inversion H. reflexivity.
  - apply column_cons_inv in H as (v & vs' & _ & H & ->). simpl. f_equal. auto.
Qed.

Lemma column_In a dataset vs tup :
  column a dataset = Ok vs -> In tup dataset ->
  exists v, getitem tup a = Ok v /\ In v vs.
Proof.
  revert vs. induction dataset as [|t rest IH]; intros vs H Hin; [destruct Hin|].
  apply column_cons_inv in H as (v & vs' & Hv & H & ->).
  destruct Hin as [->|Hin].
  - exists v. simpl. auto.
  - destruct (IH _ H Hin) as (w & Hw & Hw'). exists w. simpl. auto.
Qed.

Lemma column_In_inv a dataset vs v :
  column a dataset = Ok vs -> In v vs ->
  exists tup, In tup dataset /\ getitem tup a = Ok v.
Proof.
  revert vs. induction dataset as [|t rest IH]; intros vs H Hin.
  - inversion H; subst. destruct Hin.
  - apply column_cons_inv in H as (w & vs' & Hw & H & ->).
    destruct Hin as [->|Hin].
    + exists t. simpl. auto.
    + destruct (IH _ H Hin) as (tup & ? & ?). exists tup. simpl. auto.
Qed.

Lemma select_filter a val dataset vs :
  column a dataset = Ok vs ->
  select a val dataset = Ok (filter (has_value a val) dataset).
Proof.
  revert vs. induction dataset as [|t rest IH]; intros vs H; [reflexivity|].
  apply column_cons_inv in H as (w & vs' & Hw & H & ->).
  simpl. unfold has_value. rewrite Hw, (IH _ H). simpl.
  destruct (String.eqb w val); reflexivity.
Qed.

Lemma select_nonempty a val dataset vs :
  column a dataset = Ok vs -> In val vs ->
  exists tup sub, select a val dataset = Ok (tup :: sub).
Proof.
  intros H Hin. rewrite (select_filter _ _ _ _ H).
  destruct (column_In_inv _ _ _ _ H Hin) as (tup & Ht & Hv).
  assert (Hf : In tup (filter (has_value a val) dataset)).
  { apply filter_In. split; [exact Ht|].
    unfold has_value. rewrite Hv. apply String.eqb_refl. }
  destruct (filter _ dataset) as [|t' sub]; [destruct Hf|eauto].
Qed.

(** ** Exceptions of the comprehensions *)

Lemma getitem_raise tup k e : getitem tup k = Raise e -> e = KeyError.
Proof.
  induction tup as [|[k' v] rest IH]; simpl.
  - now intros [= <-].
  - destruct (String.eqb k k'); [discriminate|exact IH].
Qed.

Lemma mapM_raise {A B} (f : A -> result B) (l : list A) (e : exn) :
  mapM f l = Raise e -> exists x, In x l /\ f x = Raise e.
Proof.
  induction l as [|x xs IH]; simpl; [discriminate|].
  destruct (f x) as [y|e'] eqn:E; simpl.
  - destruct (mapM f xs) as [ys|e'']; simpl; [discriminate|].
    intros [= <-]. destruct IH as (x' & ? & ?); eauto.
  - intros [= <-]. eauto.
Qed.

Lemma mapM_ok {A B} (f : A -> result B) (l : list A) :
  (forall x, In x l -> exists y, f x = Ok y) ->
  exists ys, mapM f l = Ok ys /\ length ys = length l.
Proof.
  induction l as [|x xs IH]; intros H; simpl; [now exists []|].
  destruct (H x) as (y & ->); [now left|].
  destruct IH as (ys & -> & Hlen); [intros; apply H; now right|].
  exists (y :: ys). simpl. auto.
Qed.

Lemma foldM_raise {A S} (f : S -> A -> result S) (l : list A) (s : S) (e : exn) :
  foldM f l s = Raise e -> exists s' x, In x l /\ f s' x = Raise e.
Proof.
  revert s. induction l as [|x xs IH]; intros s; simpl; [discriminate|].
  destruct (f s x) as [s'|e'] eqn:E; simpl.
  - intros H. destruct (IH _ H) as (s'' & x' & ? & ?); eauto.
  - intros [= <-]. eauto.
Qed.

Lemma foldM_ok {A S} (f : S -> A -> result S) (l : list A) (s : S) :
  (forall s' x, In x l -> exists s'', f s' x = Ok s'') ->
  exists s', foldM f l s = Ok s'.
Proof.
  revert s. induction l as [|x xs IH]; intros s H; simpl; [eauto|].
  destruct (H s x) as (s'' & ->); [now left|]. simpl.
  apply IH. intros; apply H; now right.
Qed.

Lemma column_raise a dataset e : column a dataset = Raise e -> e = KeyError.
Proof.
  intros H. apply mapM_raise in H as (tup & _ & H).
  now apply getitem_raise in H.
Qed.

Lemma column_ok a dataset :
  Forall (has_key a) dataset -> exists vs, column a dataset = Ok vs.
Proof.
  intros H. destruct (mapM_ok (fun tup => getitem tup a) dataset) as (vs & E & _).
  - intros tup Hin. exact (proj1 (Forall_forall _ _) H tup Hin).
  - eauto.
Qed.

Lemma column_has_key a dataset vs :
  column a dataset = Ok vs -> Forall (has_key a) dataset.
Proof.
  intros H. apply Forall_forall. intros tup Hin.
  destruct (column_In _ _ _ _ H Hin) as (v & Hv & _). now exists v.
Qed.

Lemma select_raise a val dataset e : select a val dataset = Raise e -> e = KeyError.
Proof.
  induction dataset as [|t rest IH]; simpl; [discriminate|].
  destruct (getitem t a) as [v|e'] eqn:E; simpl.
  - destruct (select a val rest) as [sub|e'']; simpl; [discriminate|].
    intros [= <-]. now apply IH.
  - intros [= <-]. now apply getitem_raise in E.
Qed.

Lemma Forall_filter {A} (P : A -> Prop) (f : A -> bool) (l : list A) :
  Forall P l -> Forall P (filter f l).
Proof.
  intros H. apply Forall_forall. intros x Hx. apply filter_In in Hx as [Hx _].
  exact (proj1 (Forall_forall _ _) H x Hx).
Qed.

Lemma or_data_Forall (P : Record -> Prop) self dataset :
  Forall P (data self) ->
  (forall d, dataset = Some d -> Forall P d) ->
  Forall P (or_data self dataset).
Proof.
  intros Hs Hd. destruct dataset as [[|t rest]|]; simpl; auto.
Qed.

Lemma entropy_target_raise self r dataset e :
  entropy_target self r dataset = Raise e -> e = KeyError.
Proof.
  unfold entropy_target.
  destruct (column r (or_data self dataset)) as [vs|e'] eqn:E; simpl; [discriminate|].
  intros [= <-]. now apply column_raise in E.
Qed.

Lemma entropy_target_ok self r dataset :
  Forall (has_key r) (or_data self dataset) ->
  exists h, entropy_target self r dataset = Ok h.
Proof.
  intros H. unfold entropy_target.
  destruct (column_ok _ _ H) as (vs & ->). simpl. eauto.
Qed.

Lemma entropy_raise self r s dataset e :
  entropy self r s dataset = Raise e -> e = KeyError.
Proof.
  unfold entropy. destruct s as [[|c s]|]; try apply entropy_target_raise.
  destruct (column _ (or_data self dataset)) as [vs|e'] eqn:E; simpl.
  - intros H. apply foldM_raise in H as (h & val & _ & H).
    destruct (select _ val _) as [sub|e'] eqn:Es; simpl in H.
    + destruct (entropy_target self r (Some sub)) as [h'|e'] eqn:Et; simpl in H;
        [discriminate|].
      injection H as <-. now apply entropy_target_raise in Et.
    + injection H as <-. now apply select_raise in Es.
  - intros [= <-]. now apply column_raise in E.
Qed.

Lemma entropy_ok self r s dataset :
  Forall (has_key r) (data self) ->
  Forall (has_key r) (or_data self dataset) ->
  (forall a, s = Some a -> Forall (has_key a) (or_data self dataset)) ->
  exists h, entropy self r s dataset = Ok h.
Proof.
  intros Hself Hr Hs. unfold entropy.
  destruct s as [[|c s]|]; try now apply entropy_target_ok.
  destruct (column_ok _ _ (Hs _ eq_refl)) as (vs & E). rewrite E. simpl.
  apply foldM_ok. intros h val _.
  rewrite (select_filter _ _ _ _ E). simpl.
  destruct (entropy_target_ok self r (Some (filter (has_value (String c s) val)
                                              (or_data self dataset))))
    as (h' & ->).
  - apply or_data_Forall; [exact Hself|].
    intros d [= <-]. now apply Forall_filter.
  - simpl. eauto.
Qed.

Lemma information_gain_raise self r s e :
  information_gain self r s = Raise e -> e = KeyError.
Proof.
  unfold information_gain.
  destruct (entropy self r None None) as [h|e'] eqn:E1; cbn [bind].
  - destruct (entropy self r (Some s) None) as [h'|e'] eqn:E2; cbn [bind];
      [discriminate|].
    intros [= <-]. now apply entropy_raise in E2.
  - intros [= <-]. now apply entropy_raise in E1.
Qed.

Lemma information_gain_ok self r s :
  Forall (has_key r) (data self) -> Forall (has_key s) (data self) ->
  exists g, information_gain self r s = Ok g.
Proof.
  intros Hr Hs. unfold information_gain.
  destruct (entropy_ok self r None None) as (h & ->); auto; [discriminate|].
  destruct (entropy_ok self r (Some s) None) as (h' & ->); auto.
  - now intros a [= <-].
  - cbn [bind]. eauto.
Qed.

(** ** [max], [in] and [remove] *)

Lemma max_by_In {A K} (gt : K -> K -> bool) (l : list (A * K)) (a : A) :
  max_by gt l = Ok a -> In a (map fst l).
Proof.
  destruct l as [|x xs]; simpl; [discriminate|]. intros [= <-].
  assert (H : forall ys best,
             In (fold_left (fun (best y : A * K) =>
                              if gt (snd y) (snd best) then y else best)
                           ys best) (best :: ys)).
  { induction ys as [|y ys IH]; intros best; simpl; [now left|].
    destruct (gt (snd y) (snd best)).
    - right. apply IH.
    - destruct (IH best) as [H|H]; auto. }
  destruct (H xs x) as [<-|Hin]; [now left|].
  right. now apply in_map.
Qed.

Lemma max_by_raise {A K} (gt : K -> K -> bool) (l : list (A * K)) (e : exn) :
  max_by gt l = Raise e -> e = ValueError /\ l = [].
Proof. destruct l; simpl; [now intros [= <-]|discriminate]. Qed.

Lemma mem_In (x : string) (l : list string) : mem x l = true <-> In x l.
Proof.
  unfold mem. rewrite existsb_exists. split.
  - intros (y & Hin & Heq). apply String.eqb_eq in Heq. now subst.
  - intros Hin. exists x. split; [exact Hin|apply String.eqb_refl].
Qed.

#[local] Hint Constructors subseq : core.

Lemma subseq_refl l : subseq l l.
Proof. induction l; auto. Qed.

Lemma subseq_trans l1 l2 l3 : subseq l1 l2 -> subseq l2 l3 -> subseq l1 l3.
Proof.
  intros H12 H23. revert l1 H12.
  induction H23; intros l0 H12; auto.
  inversion H12; subst; auto.
Qed.

Lemma subseq_length l1 l2 : subseq l1 l2 -> length l1 <= length l2.
Proof. induction 1; simpl; lia. Qed.

Lemma subseq_In l1 l2 x : subseq l1 l2 -> In x l1 -> In x l2.
Proof. induction 1; simpl; intuition. Qed.

Lemma subseq_NoDup l1 l2 : subseq l1 l2 -> NoDup l2 -> NoDup l1.
Proof.
  induction 1; intros Hnd; auto; inversion Hnd; subst; auto.
  constructor; auto. intros Hin. eapply subseq_In in Hin; eauto.
Qed.

Lemma remove_subseq x l : subseq (remove x l) l.
Proof.
  induction l as [|y l IH]; simpl; auto.
  destruct (String.eqb x y); auto using subseq_refl.
Qed.

Lemma remove_length x l : In x l -> S (length (remove x l)) = length l.
Proof.
  induction l as [|y l IH]; simpl; [tauto|].
  destruct (String.eqb x y) eqn:E; [reflexivity|].
  apply String.eqb_neq in E. intros [H|H]; [congruence|].
  simpl. f_equal. auto.
Qed.

Lemma remove_NoDup_notin x l : NoDup l -> ~ In x (remove x l).
Proof.
  induction l as [|y l IH]; simpl; [tauto|]. intros Hnd.
  inversion Hnd; subst.
  destruct (String.eqb x y) eqn:E.
  - apply String.eqb_eq in E. now subst.
  - apply String.eqb_neq in E. simpl. intros [H|H]; [congruence|]. now apply IH.
Qed.

Lemma drop_attr_In attr attrs :
  In attr attrs -> drop_attr attr attrs = remove attr attrs.
Proof.
  intros H. destruct attrs as [|x l]; [destruct H|].
  unfold drop_attr. now rewrite (proj2 (mem_In _ _) H).
Qed.

Lemma drop_attr_subseq attr attrs : subseq (drop_attr attr attrs) attrs.
Proof.
  destruct attrs as [|x l]; [constructor|]. unfold drop_attr.
  destruct (mem attr (x :: l)); [apply remove_subseq|apply subseq_refl].
Qed.

Lemma drop_attr_subseq_remove attr attrs attrs0 :
  subseq attrs (remove attr attrs0) ->
  subseq (drop_attr attr attrs) (remove attr attrs0).
Proof. intros H. eapply subseq_trans; [apply drop_attr_subseq|exact H]. Qed.

(** ** The shape of the trees and the outcomes of [_id3] *)

Lemma keyed_mono keys keys' dataset :
  (forall k, In k keys' -> In k keys) -> keyed keys dataset -> keyed keys' dataset.
Proof.
  intros Hsub H. unfold keyed in *. eapply Forall_impl; [|exact H].
  intros tup Ht k Hk. auto.
Qed.

Lemma keyed_has_key keys dataset k :
  keyed keys dataset -> In k keys -> Forall (has_key k) dataset.
Proof.
  intros H Hk. eapply Forall_impl; [|exact H]. intros tup Ht. auto.
Qed.

Lemma valid_mono self target attrs attrs' dataset f :
  subseq attrs' attrs -> valid self target attrs dataset ->
  valid self target attrs' (filter f dataset).
Proof.
  intros Hsub [H1 H2].
  assert (Hk : forall k, In k (target :: attrs') -> In k (target :: attrs)).
  { intros k [->|Hk]; [now left|right]. eapply subseq_In; eauto. }
  split.
  - eapply keyed_mono; eauto.
  - apply Forall_filter. eapply keyed_mono; eauto.
Qed.

Lemma info_gain_fst (f : string -> result R) attrs ig :
  mapM (fun a => g <- f a ;; Ok (a, g)) attrs = Ok ig -> map fst ig = attrs.
Proof.
  revert ig. induction attrs as [|a attrs IH]; intros ig; simpl.
  - now intros [= <-].
  - destruct (f a) as [g|e]; simpl; [|discriminate].
    destruct (mapM _ attrs) as [ig'|e]; simpl; [|discriminate].
    intros [= <-]. simpl. f_equal. now apply IH.
Qed.

Section Builder.

Variable so : SetOrder.
Variable self : Dataset.
Variable target : string.

Lemma most_common_ok values :
  values <> [] -> exists v, most_common so values = Ok v.
Proof.
  intros H. unfold most_common.
  destruct (set_iter so values) as [|x xs] eqn:E.
  - apply set_iter_nil_inv in E. contradiction.
  - simpl. eauto.
Qed.

Lemma most_common_raise values e :
  most_common so values = Raise e -> e = ValueError /\ values = [].
Proof.
  intros H. apply max_by_raise in H as [-> H]. split; [reflexivity|].
  apply map_eq_nil in H. now apply set_iter_nil_inv in H.
Qed.

Lemma info_gain_choice attrs :
  attrs <> [] ->
  match info_gain <- mapM (fun a => g <- information_gain self target a ;;
                                    Ok (a, g)) attrs ;;
        max_by Rgtb info_gain with
  | Ok attr => In attr attrs
  | Raise e => e = KeyError /\ ~ keyed (target :: attrs) (data self)
  end.
Proof.
  intros Hne.
  destruct (mapM _ attrs) as [ig|e] eqn:E; cbn [bind].
  - pose proof (info_gain_fst _ _ _ E) as Hfst.
    destruct (max_by Rgtb ig) as [attr|e] eqn:Em.
    + apply max_by_In in Em. now rewrite Hfst in Em.
    + apply max_by_raise in Em as [_ ->]. simpl in Hfst. congruence.
  - apply mapM_raise in E as (a & Hin & E).
    destruct (information_gain self target a) as [g|e'] eqn:Eg;
      cbn [bind] in E; [discriminate|]. injection E as <-.
    split; [now apply information_gain_raise in Eg|].
    intros Hk.
    destruct (information_gain_ok self target a) as (g & Hg).
    + eapply keyed_has_key; eauto. now left.
    + eapply keyed_has_key; eauto. now right.
    + congruence.
Qed.

Lemma branches_post fuel attrs0 attr dataset a_col :
  (forall attrs d, length attrs < fuel ->
     exists r, _id3 so fuel self target attrs d = Some r /\
               id3_post self target attrs d r) ->
  In attr attrs0 -> length attrs0 <= fuel ->
  column attr dataset = Ok a_col ->
  forall vals acc attrs,
    (forall v, In v vals -> In v a_col) ->
    attrs = attrs0 \/ subseq attrs (remove attr attrs0) ->
    exists r,
      branches so (_id3 so fuel self target) target attr dataset vals acc attrs
      = Some r /\
      match r with
      | Ok (cs, attrs') =>
          (attrs' = attrs0 \/ subseq attrs' (remove attr attrs0)) /\
          exists cs', cs = acc ++ cs' /\
            shaped_children target attr (remove attr attrs0) dataset vals cs'
      | Raise KeyError => ~ valid self target attrs0 dataset
      | Raise _ => False
      end.
Proof.
  intros IHfuel Hattr Hlen Hcol.
  induction vals as [|val vals IH]; intros acc attrs Hvals Hinv.
  - eexists. split; [reflexivity|]. cbn. split; [exact Hinv|].
    exists []. rewrite app_nil_r. split; [reflexivity|constructor].
  - cbn [branches]. rewrite (select_filter _ _ _ _ Hcol).
    destruct (select_nonempty _ val _ _ Hcol) as (t0 & sub0 & Hsel);
      [apply Hvals; now left|].
    rewrite (select_filter _ _ _ _ Hcol) in Hsel. injection Hsel as Hsel.
    rewrite Hsel.
    assert (Hsub : subseq (drop_attr attr attrs) (remove attr attrs0)).
    { destruct Hinv as [->|Hinv].
      - rewrite drop_attr_In by exact Hattr. apply subseq_refl.
      - now apply drop_attr_subseq_remove. }
    assert (Hlt : length (drop_attr attr attrs) < fuel).
    { apply subseq_length in Hsub. pose proof (remove_length _ _ Hattr). lia. }
    destruct (IHfuel _ (t0 :: sub0) Hlt) as (r & Hr & Hpost). rewrite Hr.
    destruct r as [[sub attrs']|e]; cbn [id3_post] in Hpost.
    + destruct Hpost as [Hsub' Hshape]. cbn [fst snd].
      destruct (IH (acc ++ [mkNode (Name val) val_t [sub]]) attrs')
        as (r' & Hr' & Hpost').
      * intros v Hv. apply Hvals. now right.
      * right. eapply subseq_trans; eauto.
      * exists r'. split; [exact Hr'|].
        destruct r' as [[cs attrs'']|e]; [|exact Hpost'].
        destruct Hpost' as [Hinv' (cs' & -> & Hcs')]. split; [exact Hinv'|].
        exists (mkNode (Name val) val_t [sub] :: cs').
        rewrite <- app_assoc. split; [reflexivity|].
        econstructor; [exact Hsub| |exact Hcs']. now rewrite Hsel.
    + eexists. split; [reflexivity|].
      destruct e; try exact Hpost.
      * intros Hv. apply Hpost. rewrite <- Hsel.
        apply (valid_mono self target attrs0); [|exact Hv].
        eapply subseq_trans; [exact Hsub|apply remove_subseq].
      * destruct Hpost as [Hpost _]. discriminate.
Qed.

(** Every call within its budget ends, with a tree of the expected shape
    or one of the two exceptions the body can raise. *)
Lemma id3_post_holds fuel :
  forall attrs dataset, length attrs < fuel ->
    exists r, _id3 so fuel self target attrs dataset = Some r /\
              id3_post self target attrs dataset r.
Proof.
  induction fuel as [|fuel IH]; intros attrs dataset Hlen; [lia|].
  cbn [_id3].
  destruct (column target dataset) as [t_values|e] eqn:Et.
  2:{ eexists. split; [reflexivity|]. pose proof (column_raise _ _ _ Et) as ->.
      cbn. intros [_ Hv].
      destruct (column_ok target dataset) as (vs & Hvs); [|congruence].
      eapply keyed_has_key; eauto. now left. }
  assert (Hleaf : forall val, exists r,
             Some (Ok (leaf target val, attrs)) = Some r /\
             id3_post self target attrs dataset r).
  { intros val. eexists. split; [reflexivity|]. cbn.
    split; [apply subseq_refl|constructor]. }
  assert (Hrest : exists r,
             match attrs with
             | [] => common <-- Some (most_common so t_values) ;;;
                     Some (Ok (leaf target common, attrs))
             | _ :: _ =>
                 attr <-- Some (info_gain <-
                                  mapM (fun a =>
                                          g <- information_gain self target a ;;
                                          Ok (a, g)) attrs ;;
                                max_by Rgtb info_gain) ;;;
                 a_col <-- Some (column attr dataset) ;;;
                 r <-- branches so (_id3 so fuel self target) target attr
                         dataset (sorted (set_iter so a_col)) [] attrs ;;;
                 Some (Ok (mkNode (Name attr) attr_t (fst r), snd r))
             end = Some r /\ id3_post self target attrs dataset r).
  { destruct attrs as [|a0 attrs'] eqn:Eattrs.
    - destruct (most_common so t_values) as [common|e] eqn:Em.
      + apply Hleaf.
      + eexists. split; [reflexivity|].
        apply most_common_raise in Em as [-> ->]. cbn.
        apply column_length in Et. destruct dataset; [auto|discriminate].
    - rewrite <- Eattrs in *.
      assert (Hne : attrs <> []) by (rewrite Eattrs; discriminate).
      pose proof (info_gain_choice attrs Hne) as Hchoice.
      destruct (info_gain <- mapM _ attrs ;; max_by Rgtb info_gain)
        as [attr|e] eqn:Ec.
      2:{ eexists. split; [reflexivity|]. destruct Hchoice as [-> Hk].
          cbn. intros [Hv _]. auto. }
      destruct (column attr dataset) as [a_col|e] eqn:Ea.
      2:{ eexists. split; [reflexivity|]. pose proof (column_raise _ _ _ Ea) as ->.
          cbn. intros [_ Hv].
          destruct (column_ok attr dataset) as (vs & Hvs); [|congruence].
          eapply keyed_has_key; eauto. now right. }
      destruct (branches_post fuel attrs attr dataset a_col IH Hchoice
                  ltac:(lia) Ea (sorted (set_iter so a_col)) [] attrs)
        as (r & -> & Hpost).
      + intros v Hv. now apply sorted_set_In in Hv.
      + now left.
      + destruct r as [[cs attrs'']|e].
        * eexists. split; [reflexivity|]. cbn [fst snd id3_post].
          destruct Hpost as [Hinv (cs' & -> & Hcs)]. split.
          -- destruct Hinv as [->|Hinv]; [apply subseq_refl|].
             eapply subseq_trans; [exact Hinv|apply remove_subseq].
          -- econstructor; eauto using sorted_set_NoDup.
             intros v. apply sorted_set_In.
        * eexists. split; [reflexivity|].
          destruct e; cbn; try exact Hpost. destruct Hpost. }
  destruct (set_iter so t_values) as [|v [|v' vs]]; auto.
Qed.

(** A larger budget does not change the outcome. *)
Lemma branches_mono rec1 rec2 attr dataset :
  (forall attrs d r, rec1 attrs d = Some r -> rec2 attrs d = Some r) ->
  forall vals acc attrs r,
    branches so rec1 target attr dataset vals acc attrs = Some r ->
    branches so rec2 target attr dataset vals acc attrs = Some r.
Proof.
  intros Hrec. induction vals as [|val vals IH]; intros acc attrs r;
    cbn [branches]; [auto|].
  destruct (select attr val dataset) as [[|t0 sub0]|e]; [| |auto].
  - destruct (subset_t_values <- column target [] ;; most_common so subset_t_values)
      as [common|e]; [apply IH|auto].
  - destruct (rec1 (drop_attr attr attrs) (t0 :: sub0)) as [[sub|e]|] eqn:E;
      [| |discriminate].
    + rewrite (Hrec _ _ _ E). apply IH.
    + rewrite (Hrec _ _ _ E). auto.
Qed.

Lemma id3_fuel_S fuel :
  forall attrs dataset r,
    _id3 so fuel self target attrs dataset = Some r ->
    _id3 so (S fuel) self target attrs dataset = Some r.
Proof.
  induction fuel as [|fuel IH]; intros attrs dataset r; [discriminate|].
  intros H. cbn [_id3] in H |- *.
  destruct (column target dataset) as [t_values|e]; [|exact H].
  assert (Hrest :
    match attrs with
    | [] => common <-- Some (most_common so t_values) ;;;
            Some (Ok (leaf target common, attrs))
    | _ :: _ =>
        attr <-- Some (info_gain <-
                         mapM (fun a => g <- information_gain self target a ;;
                                        Ok (a, g)) attrs ;;
                       max_by Rgtb info_gain) ;;;
        a_col <-- Some (column attr dataset) ;;;
        r <-- branches so (_id3 so fuel self target) target attr
                dataset (sorted (set_iter so a_col)) [] attrs ;;;
        Some (Ok (mkNode (Name attr) attr_t (fst r), snd r))
    end = Some r ->
    match attrs with
    | [] => common <-- Some (most_common so t_values) ;;;
            Some (Ok (leaf target common, attrs))
    | _ :: _ =>
        attr <-- Some (info_gain <-
                         mapM (fun a => g <- information_gain self target a ;;
                                        Ok (a, g)) attrs ;;
                       max_by Rgtb info_gain) ;;;
        a_col <-- Some (column attr dataset) ;;;
        r <-- branches so (_id3 so (S fuel) self target) target attr
                dataset (sorted (set_iter so a_col)) [] attrs ;;;
        Some (Ok (mkNode (Name attr) attr_t (fst r), snd r))
    end = Some r).
  { destruct attrs as [|a0 attrs']; [auto|].
    destruct (info_gain <- mapM _ (a0 :: attrs') ;; max_by Rgtb info_gain)
      as [attr|e]; [|auto].
    destruct (column attr dataset) as [a_col|e]; [|auto].
    destruct (branches so (_id3 so fuel self target) target attr dataset
                (sorted (set_iter so a_col)) [] (a0 :: attrs'))
      as [rb|] eqn:E; [|discriminate].
    rewrite (branches_mono _ (_id3 so (S fuel) self target) _ _ IH _ _ _ _ E).
    auto. }
  destruct (set_iter so t_values) as [|v [|v' vs]]; auto.
Qed.

Lemma id3_fuel_plus fuel k attrs dataset r :
  _id3 so fuel self target attrs dataset = Some r ->
  _id3 so (fuel + k) self target attrs dataset = Some r.
Proof.
  intros H. induction k as [|k IH].
  - now rewrite Nat.add_0_r.
  - rewrite Nat.add_succ_r. now apply id3_fuel_S.
Qed.

Lemma id3_post_any_fuel fuel attrs dataset r :
  _id3 so fuel self target attrs dataset = Some r ->
  id3_post self target attrs dataset r.
Proof.
  intros H. apply (id3_fuel_plus _ (S (length attrs))) in H.
  destruct (id3_post_holds (fuel + S (length attrs)) attrs dataset)
    as (r' & Hr' & Hpost); [lia|].
  congruence.
Qed.

(** The recursive calls of the loop of a call that tests [attr], an
    element of its list [attrs0], all receive fewer attributes than
    [attrs0] has. *)
Lemma branches_shorter fuel attrs0 attr dataset :
  In attr attrs0 ->
  forall vals acc attrs,
    attrs = attrs0 \/ subseq attrs (remove attr attrs0) ->
    branches so (_id3 so fuel self target) target attr dataset vals acc attrs
    = branches so (shorter_only (length attrs0) (_id3 so fuel self target))
        target attr dataset vals acc attrs.
Proof.
  intros Hattr. induction vals as [|val vals IH]; intros acc attrs Hinv;
    cbn [branches]; [reflexivity|].
  destruct (select attr val dataset) as [[|t0 sub0]|e]; [| |reflexivity].
  - destruct (subset_t_values <- column target [] ;; most_common so subset_t_values)
      as [common|e]; [now apply IH|reflexivity].
  - assert (Hsub : subseq (drop_attr attr attrs) (remove attr attrs0)).
    { destruct Hinv as [->|Hinv].
      - rewrite drop_attr_In by exact Hattr. apply subseq_refl.
      - now apply drop_attr_subseq_remove. }
    assert (Hlt : Nat.ltb (length (drop_attr attr attrs)) (length attrs0) = true).
    { apply Nat.ltb_lt. apply subseq_length in Hsub.
      pose proof (remove_length _ _ Hattr). lia. }
    unfold shorter_only at 1. rewrite Hlt.
    destruct (_id3 so fuel self target (drop_attr attr attrs) (t0 :: sub0))
      as [[[sub attrs']|e]|] eqn:E; try reflexivity.
    apply IH. right. apply id3_post_any_fuel in E as [Hs _].
    eapply subseq_trans; eauto.
Qed.

End Builder.

Lemma shaped_height target attrs dataset tree :
  shaped target attrs dataset tree -> height tree <= length attrs.
Proof.
  intros H.
  induction H using shaped_mind with
    (P0 := fun attr attrs dataset vals cs =>
             fold_right (fun c m => Nat.max (height c) m) 0 cs <= length attrs).
  - simpl. lia.
  - cbn [height]. pose proof (remove_length _ _ H). lia.
  - simpl. lia.
  - cbn [fold_right height]. apply subseq_length in H. lia.
Qed.

(** C6: the recursion of [_id3] ends for every input: a budget of one call
    more than there are attributes always yields the outcome, whatever is
    added to it; the returned tree tests at most as many attributes on a
    path as the call was given; the attribute list only loses elements;
    and every recursive call made by the loop of a call that tests one of
    its attributes receives strictly fewer attributes than that call. *)
Theorem id3_terminates (so : SetOrder) (self : Dataset) (target : string)
    (attrs : list string) (dataset : list Record) :
  (exists r,
     (forall k, _id3 so (S (length attrs) + k) self target attrs dataset = Some r) /\
     match r with
     | Ok (tree, attrs') => height tree <= length attrs /\ subseq attrs' attrs
     | Raise _ => True
     end) /\
  (forall fuel attr vals acc,
     In attr attrs ->
     branches so (_id3 so fuel self target) target attr dataset vals acc attrs
     = branches so (shorter_only (length attrs) (_id3 so fuel self target))
         target attr dataset vals acc attrs).
Proof.
  split.
  - destruct (id3_post_holds so self target (S (length attrs)) attrs dataset)
      as (r & Hr & Hpost); [lia|].
    exists r. split.
    + intros k. now apply id3_fuel_plus.
    + destruct r as [[tree attrs']|e]; [|exact I].
      destruct Hpost as [Hsub Hshape]. split; [|exact Hsub].
      eapply shaped_height; eauto.
  - intros fuel attr vals acc Hattr.
    apply branches_shorter; [exact Hattr|now left].
Qed.

(** ** Paths of a tree *)

Lemma Node_ind' (P : Node -> Prop) :
  (forall v t cs, Forall P cs -> P (mkNode v t cs)) -> forall n, P n.
Proof.
  intros H. fix IH 1. intros [v t cs]. apply H.
  induction cs as [|c cs IHcs]; constructor; [apply IH|exact IHcs].
Qed.

Lemma paths_prefix node : forall path,
  paths node path = map (app path) (paths node []).
Proof.
  induction node as [v t cs IH] using Node_ind'. intros path. cbn [paths].
  rewrite map_app. f_equal; [destruct t; reflexivity|].
  induction IH as [|c cs Hc _ IHcs]; [reflexivity|]. cbn [flat_map].
  rewrite map_app, IHcs. f_equal.
  rewrite (Hc (path ++ [v])), (Hc ([] ++ [v])), map_map.
  apply map_ext. intros p. now rewrite app_assoc.
Qed.

Lemma paths_leaf target val : paths (leaf target val) [] = [[Label target val]].
Proof. reflexivity. Qed.

Lemma paths_val_node val sub :
  paths (mkNode (Name val) val_t [sub]) [] = map (cons (Name val)) (paths sub []).
Proof.
  cbn [paths flat_map]. rewrite app_nil_r. cbn [app]. apply paths_prefix.
Qed.

Lemma paths_test_node attr cs :
  paths (mkNode (Name attr) attr_t cs) []
  = flat_map (fun c => map (cons (Name attr)) (paths c [])) cs.
Proof.
  cbn [paths app]. apply flat_map_ext. intros c. apply paths_prefix.
Qed.

Lemma tests_cons a b p :
  p <> [] -> tests (a :: b :: p) = a :: tests p.
Proof. intros H. destruct p as [|c p]; [contradiction|reflexivity]. Qed.

(** ** No attribute is tested twice on a path *)

Lemma shaped_tests target attrs dataset tree :
  shaped target attrs dataset tree ->
  NoDup attrs ->
  forall r, In r (paths tree []) ->
    r <> [] /\ NoDup (tests r) /\
    forall x, In x (tests r) -> exists a, x = Name a /\ In a attrs.
Proof.
  intros H.
  induction H using shaped_mind with
    (P0 := fun attr attrs dataset vals cs =>
             NoDup attrs ->
             forall c, In c cs -> forall r, In r (paths c []) ->
               exists val p, r = Name val :: p /\ p <> [] /\ NoDup (tests p) /\
                 forall x, In x (tests p) -> exists a, x = Name a /\ In a attrs).
  - intros _ r [<-|[]]. split; [discriminate|]. split; [constructor|].
    intros x [].
  - intros Hnd r Hr. rewrite paths_test_node in Hr.
    apply in_flat_map in Hr as (c & Hc & Hr).
    apply in_map_iff in Hr as (q & <- & Hq).
    destruct (IHshaped (subseq_NoDup _ _ (remove_subseq attr attrs) Hnd) c Hc q Hq)
      as (val & p & -> & Hp & Hndp & Hin).
    split; [discriminate|]. rewrite (tests_cons _ _ _ Hp). split.
    + constructor; [|exact Hndp]. intros Hx.
      destruct (Hin _ Hx) as (a & [= <-] & Ha).
      now apply (remove_NoDup_notin attr attrs Hnd).
    + intros x [<-|Hx]; [eauto|].
      destruct (Hin _ Hx) as (a & -> & Ha). exists a. split; [reflexivity|].
      eapply subseq_In; [apply remove_subseq|exact Ha].
  - intros _ c [].
  - intros Hnd c [<-|Hc] r Hr; [|now apply (IHshaped0 Hnd c Hc r Hr)].
    rewrite paths_val_node in Hr. apply in_map_iff in Hr as (p & <- & Hp).
    destruct (IHshaped (subseq_NoDup _ _ H Hnd) p Hp) as (Hne & Hndp & Hin).
    exists val, p. repeat split; auto.
    intros x Hx. destruct (Hin x Hx) as (a & -> & Ha). exists a.
    split; [reflexivity|]. eapply subseq_In; eauto.
Qed.

(** C9, amended: when the attribute names handed to [_id3] are pairwise
    distinct, no path of the returned tree tests an attribute twice: on
    every path the tested attributes, as the rules read them off, are
    pairwise distinct and are attributes of the given list.  ([remove]
    takes one occurrence of a name out of the list, so a name that stands
    twice in the header line can be tested twice.) *)
Theorem no_attribute_tested_twice (so : SetOrder) (self : Dataset)
    (target : string) (attrs : list string) (dataset : list Record)
    (fuel : nat) (tree : Node) (attrs' : list string) :
  NoDup attrs ->
  _id3 so fuel self target attrs dataset = Some (Ok (tree, attrs')) ->
  forall r, In r (paths tree []) ->
    NoDup (tests r) /\
    forall x, In x (tests r) -> exists a, x = Name a /\ In a attrs.
Proof.
  intros Hnd H r Hr. apply id3_post_any_fuel in H as [_ Hshape].
  now apply (shaped_tests _ _ _ _ Hshape Hnd r Hr).
Qed.

(** ** The branches of a test *)

(** C10: in a call on a non-empty [dataset] whose chosen attribute has the
    column [a_col], every value the loop runs over is a value of the
    column and selects at least one record; the branch for an empty
    selection, which takes [max] over an empty set, would raise
    [ValueError]; and no call on a non-empty [dataset] raises it. *)
Theorem fallback_never_runs (so : SetOrder) (self : Dataset)
    (target : string) (attrs : list string) (dataset : list Record)
    (attr : string) (a_col : list string) :
  dataset <> [] ->
  column attr dataset = Ok a_col ->
  (forall val, In val (sorted (set_iter so a_col)) ->
     In val a_col /\ exists tup sub, select attr val dataset = Ok (tup :: sub)) /\
  (forall rec val rest acc,
     select attr val dataset = Ok [] ->
     branches so rec target attr dataset (val :: rest) acc attrs
     = Some (Raise ValueError)) /\
  (forall fuel, _id3 so fuel self target attrs dataset <> Some (Raise ValueError)).
Proof.
  intros Hne Hcol. repeat split.
  - now apply sorted_set_In in H.
  - apply (select_nonempty _ _ _ _ Hcol). now apply sorted_set_In in H.
  - intros rec val rest acc Hsel. cbn [branches]. rewrite Hsel.
    cbn [column mapM bind]. unfold most_common. now rewrite set_iter_nil.
  - intros fuel H. apply id3_post_any_fuel in H. cbn in H. now destruct H.
Qed.

Lemma fallback_never_runs_witness :
  data table_one_attr <> [] /\
  column "A" (data table_one_attr) = Ok ["a1"; "a1"; "a2"] /\
  (forall val, In val (sorted (set_iter insertion_order ["a1"; "a1"; "a2"])) ->
     In val ["a1"; "a1"; "a2"] /\
     exists tup sub, select "A" val (data table_one_attr) = Ok (tup :: sub)) /\
  (forall rec val rest acc,
     select "A" val (data table_one_attr) = Ok [] ->
     branches insertion_order rec "T" "A" (data table_one_attr) (val :: rest)
       acc ["A"]
     = Some (Raise ValueError)) /\
  (forall fuel,
     _id3 insertion_order fuel table_one_attr "T" ["A"] (data table_one_attr)
     <> Some (Raise ValueError)).
Proof.
  split; [discriminate|]. split; [reflexivity|].
  apply (fallback_never_runs insertion_order table_one_attr "T" ["A"]
           (data table_one_attr) "A" ["a1"; "a1"; "a2"]).
  - discriminate.
  - reflexivity.
Defined.

(** ** The rules of a tree partition the records it was built from *)

Lemma mapM_app {A B} (f : A -> result B) (l1 l2 : list A) :
  mapM f (l1 ++ l2)
  = (ys1 <- mapM f l1 ;; ys2 <- mapM f l2 ;; Ok (ys1 ++ ys2)).
Proof.
  induction l1 as [|x l1 IH]; cbn [mapM app bind].
  - destruct (mapM f l2); reflexivity.
  - destruct (f x) as [y|e]; cbn [bind]; [|reflexivity].
    rewrite IH. destruct (mapM f l1) as [ys1|e]; cbn [bind]; [|reflexivity].
    destruct (mapM f l2); reflexivity.
Qed.

Lemma mapM_map {A B C} (f : B -> result C) (g : A -> B) (l : list A) :
  mapM f (map g l) = mapM (fun x => f (g x)) l.
Proof.
  induction l as [|x l IH]; cbn [mapM map]; [reflexivity|]. now rewrite IH.
Qed.

Lemma mapM_ext_in {A B} (f g : A -> result B) (l : list A) :
  (forall x, In x l -> f x = g x) -> mapM f l = mapM g l.
Proof.
  induction l as [|x l IH]; intros H; cbn [mapM]; [reflexivity|].
  rewrite (H x), IH; [reflexivity| |now left]. intros; apply H; now right.
Qed.

Lemma mapM_bind_map {A B} (f : A -> result B) (h : B -> B) (l : list A) :
  mapM (fun x => y <- f x ;; Ok (h y)) l = (ys <- mapM f l ;; Ok (map h ys)).
Proof.
  induction l as [|x l IH]; cbn [mapM bind map]; [reflexivity|].
  destruct (f x) as [y|e]; cbn [bind]; [|reflexivity].
  rewrite IH. destruct (mapM f l); reflexivity.
Qed.

Lemma count_true_app bs1 bs2 :
  count_true (bs1 ++ bs2) = count_true bs1 + count_true bs2.
Proof. apply count_occ_app. Qed.

Lemma count_true_false bs : count_true (map (fun b => false && b) bs) = 0.
Proof. induction bs as [|b bs IH]; [reflexivity|exact IH]. Qed.

Lemma count_true_true bs : count_true (map (fun b => true && b) bs) = count_true bs.
Proof. now rewrite (map_ext _ (fun b => b)), map_id. Qed.

Lemma paths_nonempty node r : In r (paths node []) -> r <> [].
Proof.
  destruct node as [v t cs]. cbn [paths app]. intros H.
  apply in_app_or in H as [H|H].
  - destruct t; try destruct H as [<-|[]]; try destruct H. discriminate.
  - apply in_flat_map in H as (c & _ & H). rewrite paths_prefix in H.
    apply in_map_iff in H as (q & <- & _). discriminate.
Qed.

Lemma path_condition_cons a b p :
  p <> [] -> path_condition (a :: b :: p) = (a, b) :: path_condition p.
Proof. intros H. destruct p as [|c p]; [contradiction|reflexivity]. Qed.

Lemma eval_condition_cons tup attr val v rest :
  getitem tup attr = Ok v ->
  eval_condition tup ((Name attr, Name val) :: rest)
  = (b <- eval_condition tup rest ;; Ok (String.eqb v val && b)).
Proof.
  intros Hv. unfold eval_condition. cbn [mapM fst snd]. rewrite Hv.
  cbn [bind]. destruct (mapM _ rest) as [results|e]; reflexivity.
Qed.

(** The answers of the rules of the branch for [val] to a record whose
    value is [v]. *)
Lemma eval_branch tup attr val v ps :
  getitem tup attr = Ok v ->
  (forall p, In p ps -> p <> []) ->
  mapM (fun r => eval_condition tup (path_condition r))
       (map (cons (Name attr)) (map (cons (Name val)) ps))
  = (bs <- mapM (fun r => eval_condition tup (path_condition r)) ps ;;
     Ok (map (fun b => String.eqb v val && b) bs)).
Proof.
  intros Hv Hne. rewrite map_map, mapM_map, <- mapM_bind_map.
  apply mapM_ext_in. intros p Hp.
  rewrite (path_condition_cons _ _ _ (Hne p Hp)).
  now apply eval_condition_cons.
Qed.

Lemma has_value_true tup attr v val :
  getitem tup attr = Ok v -> has_value attr val tup = String.eqb v val.
Proof. intros H. unfold has_value. now rewrite H. Qed.

Lemma shaped_matches target attrs dataset tree :
  shaped target attrs dataset tree ->
  forall tup, (forall a, In a attrs -> has_key a tup) ->
    exists bs,
      mapM (fun r => eval_condition tup (path_condition r)) (paths tree [])
      = Ok bs /\
      (In tup dataset -> count_true bs = 1).
Proof.
  intros H.
  induction H using shaped_mind with
    (P0 := fun attr attrs dataset vals cs =>
             forall tup v, (forall a, In a attrs -> has_key a tup) ->
               getitem tup attr = Ok v ->
               exists bs,
                 mapM (fun r => eval_condition tup (path_condition r))
                      (flat_map (fun c => map (cons (Name attr)) (paths c [])) cs)
                 = Ok bs /\
                 (~ In v vals -> count_true bs = 0) /\
                 (In v vals -> NoDup vals -> In tup dataset -> count_true bs = 1)).
  - intros tup _. exists [true]. split; [reflexivity|]. reflexivity.
  - intros tup Hkeys. rewrite paths_test_node.
    destruct (Hkeys attr H) as (v & Hv).
    destruct (IHshaped tup v) as (bs & Hbs & _ & Hone); [|exact Hv|].
    { intros a Ha. apply Hkeys. eapply subseq_In; [apply remove_subseq|exact Ha]. }
    exists bs. split; [exact Hbs|]. intros Hin. apply Hone; auto.
    apply H2. destruct (column_In _ _ _ _ H0 Hin) as (w & Hw & Hw').
    congruence.
  - intros tup v _ _. exists []. split; [reflexivity|]. split; [reflexivity|].
    intros [].
  - intros tup v Hkeys Hv. cbn [flat_map].
    rewrite paths_val_node, mapM_app.
    rewrite (eval_branch _ _ _ _ _ Hv (fun p => paths_nonempty sub p)).
    destruct (IHshaped tup) as (bs1 & Hbs1 & Hone1).
    { intros a Ha. apply Hkeys. eapply subseq_In; eauto. }
    destruct (IHshaped0 tup v Hkeys Hv) as (bs2 & Hbs2 & Hzero2 & Hone2).
    rewrite Hbs1, Hbs2. cbn [bind].
    eexists. split; [reflexivity|]. rewrite count_true_app.
    destruct (String.eqb v val) eqn:E.
    + apply String.eqb_eq in E. subst val. split.
      * intros Hn. exfalso. apply Hn. now left.
      * intros _ Hnd Hin. inversion Hnd; subst.
        rewrite count_true_true, Hzero2 by assumption.
        rewrite Hone1; [reflexivity|].
        apply filter_In. split; [exact Hin|].
        rewrite (has_value_true _ _ _ _ Hv). apply String.eqb_refl.
    + apply String.eqb_neq in E. rewrite count_true_false. split.
      * intros Hn. apply Hzero2. intros Hin. apply Hn. now right.
      * intros [Heq|Hin] Hnd Hd; [congruence|]. inversion Hnd; subst.
        now apply Hone2.
Qed.

Lemma shaped_last target attrs dataset tree :
  shaped target attrs dataset tree ->
  forall r, In r (paths tree []) ->
    exists val, last r (Name "") = Label target val.
Proof.
  intros H.
  induction H using shaped_mind with
    (P0 := fun attr attrs dataset vals cs =>
             forall c, In c cs -> forall r, In r (paths c []) ->
               exists val, last r (Name "") = Label target val).
  - intros r [<-|[]]. now exists val.
  - intros r Hr. rewrite paths_test_node in Hr.
    apply in_flat_map in Hr as (c & Hc & Hr).
    apply in_map_iff in Hr as (q & <- & Hq).
    destruct (IHshaped c Hc q Hq) as (val & Hval). exists val.
    pose proof (paths_nonempty _ _ Hq). destruct q; [contradiction|exact Hval].
  - intros c [].
  - intros c [<-|Hc] r Hr; [|now apply (IHshaped0 c Hc r Hr)].
    rewrite paths_val_node in Hr. apply in_map_iff in Hr as (q & <- & Hq).
    destruct (IHshaped q Hq) as (w & Hw). exists w.
    pose proof (paths_nonempty _ _ Hq). destruct q; [contradiction|exact Hw].
Qed.

(** The rules of the paths: none raises, and their conditions are the
    conditions of the paths. *)
Lemma rules_of_paths target ps :
  (forall r, In r ps -> exists val, last r (Name "") = Label target val) ->
  exists rules,
    mapM rule_of_path ps = Ok rules /\
    map fst rules = map path_condition ps /\
    Forall (fun rule => fst (snd rule) = target) rules.
Proof.
  induction ps as [|r ps IH]; intros H.
  - exists []. repeat split. constructor.
  - destruct IH as (rules & Hrules & Hfst & Hall); [intros; apply H; now right|].
    destruct (H r) as (val & Hval); [now left|].
    cbn [mapM]. unfold rule_of_path at 1. rewrite Hval, Hrules. cbn [bind].
    eexists. split; [reflexivity|]. cbn [map fst]. split.
    + now rewrite Hfst.
    + constructor; [reflexivity|exact Hall].
Qed.

Lemma matching_step t ds (rules : list Rule) :
  forall bs subs,
    mapM (fun rule => eval_condition t (fst rule)) rules = Ok bs ->
    mapM (fun rule => matching (fst rule) ds) rules = Ok subs ->
    exists subs',
      mapM (fun rule => matching (fst rule) (t :: ds)) rules = Ok subs' /\
      length (concat subs') = count_true bs + length (concat subs).
Proof.
  induction rules as [|rule rules IH]; intros bs subs; cbn [mapM].
  - intros [= <-] [= <-]. exists []. split; reflexivity.
  - destruct (eval_condition t (fst rule)) as [b|e] eqn:Eb; cbn [bind];
      [|discriminate].
    destruct (mapM (fun rule => eval_condition t (fst rule)) rules)
      as [bs'|e] eqn:Ebs; cbn [bind]; [|discriminate].
    intros [= <-].
    destruct (matching (fst rule) ds) as [sub|e] eqn:Es; cbn [bind];
      [|discriminate].
    destruct (mapM (fun rule => matching (fst rule) ds) rules)
      as [subs'|e] eqn:Ess; cbn [bind]; [|discriminate].
    intros [= <-].
    destruct (IH bs' subs' eq_refl eq_refl) as (subs'' & -> & Hlen).
    cbn [matching]. rewrite Eb, Es. cbn [bind].
    eexists. split; [reflexivity|].
    cbn [concat]. rewrite !length_app, Hlen.
    unfold count_true. destruct b; cbn [count_occ length];
      destruct (Bool.bool_dec _ _); try congruence; lia.
Qed.

Lemma matching_partition (rules : list Rule) ds :
  (forall t, In t ds ->
     exists bs, mapM (fun rule => eval_condition t (fst rule)) rules = Ok bs /\
                count_true bs = 1) ->
  exists subsets,
    mapM (fun rule => matching (fst rule) ds) rules = Ok subsets /\
    length (concat subsets) = length ds.
Proof.
  induction ds as [|t ds IH]; intros H.
  - clear H. exists (map (fun _ => []) rules). split.
    + induction rules as [|rule rules IHr]; cbn [mapM map]; [reflexivity|].
      now rewrite IHr.
    + induction rules as [|rule rules IHr]; [reflexivity|exact IHr].
  - destruct IH as (subs & Hsubs & Hlen); [intros; apply H; now right|].
    destruct (H t) as (bs & Hbs & Hone); [now left|].
    destruct (matching_step t ds rules bs subs Hbs Hsubs) as (subs' & Hs' & Hl').
    exists subs'. split; [exact Hs'|]. rewrite Hl', Hone, Hlen. reflexivity.
Qed.

(** A call on records that have all the keys ends with a tree. *)
Lemma id3_valid_ok so self target attrs dataset :
  valid self target attrs dataset -> dataset <> [] ->
  exists tree attrs',
    _id3 so (S (length attrs)) self target attrs dataset
    = Some (Ok (tree, attrs')) /\
    subseq attrs' attrs /\ shaped target attrs dataset tree.
Proof.
  intros Hv Hne.
  destruct (id3_post_holds so self target (S (length attrs)) attrs dataset)
    as (r & Hr & Hpost); [lia|].
  destruct r as [[tree attrs']|e].
  - exists tree, attrs'. split; [exact Hr|exact Hpost].
  - destruct e; cbn in Hpost; try contradiction.
    destruct Hpost as [Hd _]. contradiction.
Qed.

(** C4: for a table whose records all have a value for the target and for
    every header, and that has a record, the rules derived from the tree
    built on it partition it: [derive_ruleset] returns rules, every record
    of the table satisfies the condition of exactly one of the rules, and
    the subsets of the table that [accuracy] selects for the rules have as
    many records together as the table has. *)
Theorem rules_partition_table (so : SetOrder) (self : Dataset) :
  tree self = None ->
  keyed (target self :: headers self) (data self) ->
  data self <> [] ->
  exists rules self',
    derive_ruleset so self = Some (Ok (rules, self')) /\
    data self' = data self /\
    (forall tup, In tup (data self) ->
       exists bs,
         mapM (fun rule => eval_condition tup (fst rule)) rules = Ok bs /\
         count_true bs = 1) /\
    exists subsets,
      mapM (fun rule => matching (fst rule) (data self)) rules = Ok subsets /\
      length (concat subsets) = length (data self).
Proof.
  intros Htree Hkeys Hne.
  destruct (id3_valid_ok so self (target self) (headers self) (data self))
    as (t & attrs' & Hid3 & _ & Hshape); [split; exact Hkeys|exact Hne|].
  destruct (rules_of_paths (target self) (paths t []) (shaped_last _ _ _ _ Hshape))
    as (rules & Hrules & Hfst & _).
  assert (Hpart : forall tup, In tup (data self) ->
            exists bs,
              mapM (fun rule => eval_condition tup (fst rule)) rules = Ok bs /\
              count_true bs = 1).
  { intros tup Hin.
    destruct (shaped_matches _ _ _ _ Hshape tup) as (bs & Hbs & Hone).
    - intros a Ha. apply (proj1 (Forall_forall _ _) Hkeys tup Hin). now right.
    - exists bs. split; [|now apply Hone].
      rewrite <- (mapM_map (eval_condition tup) fst rules), Hfst, mapM_map.
      exact Hbs. }
  exists rules. eexists. unfold derive_ruleset, build_tree.
  rewrite Htree, Hid3. cbn [fst snd]. rewrite Hrules. cbn [data].
  split; [reflexivity|]. split; [reflexivity|]. split; [exact Hpart|].
  now apply matching_partition.
Qed.

Lemma rules_partition_table_witness :
  tree table_one_attr = None /\
  keyed (target table_one_attr :: headers table_one_attr) (data table_one_attr) /\
  data table_one_attr <> [] /\
  exists rules self',
    derive_ruleset insertion_order table_one_attr = Some (Ok (rules, self')) /\
    data self' = data table_one_attr /\
    (forall tup, In tup (data table_one_attr) ->
       exists bs,
         mapM (fun rule => eval_condition tup (fst rule)) rules = Ok bs /\
         count_true bs = 1) /\
    exists subsets,
      mapM (fun rule => matching (fst rule) (data table_one_attr)) rules
      = Ok subsets /\
      length (concat subsets) = length (data table_one_attr).
Proof.
  assert (Hk : keyed (target table_one_attr :: headers table_one_attr)
                     (data table_one_attr)).
  { repeat constructor; intros k [<-|[<-|[]]]; eexists; reflexivity. }
  split; [reflexivity|]. split; [exact Hk|]. split; [discriminate|].
  apply (rules_partition_table insertion_order table_one_attr).
  - reflexivity.
  - exact Hk.
  - discriminate.
Defined.

(** ** A table without records *)

Lemma Rgtb_irrefl (x : R) : Rgtb x x = false.
Proof.
  unfold Rgtb. destruct (Rlt_dec x x) as [H|H]; [|reflexivity].
  exfalso. exact (Rlt_irrefl x H).
Qed.

Lemma max_by_all_equal {A} (a : A) (k : R) (l : list (A * R)) :
  Forall (fun y => snd y = k) l -> max_by Rgtb ((a, k) :: l) = Ok a.
Proof.
  intros H. cbn [max_by]. f_equal.
  induction H as [|y l Hy _ IH]; [reflexivity|].
  cbn [fold_left snd]. rewrite Hy, Rgtb_irrefl. exact IH.
Qed.

Lemma information_gain_empty self r s :
  data self = [] -> information_gain self r s = Ok (0 - 0)%R.
Proof.
  intros H. unfold information_gain, entropy, entropy_target, or_data.
  rewrite H. destruct s as [|c s]; reflexivity.
Qed.

Lemma info_gain_empty self target attrs :
  data self = [] ->
  exists ig,
    mapM (fun a => g <- information_gain self target a ;; Ok (a, g)) attrs
    = Ok ig /\
    map fst ig = attrs /\ Forall (fun y => snd y = (0 - 0)%R) ig.
Proof.
  intros H. induction attrs as [|a attrs (ig & Hig & Hfst & Hall)].
  - exists []. repeat split. constructor.
  - exists ((a, (0 - 0)%R) :: ig). cbn [mapM].
    rewrite (information_gain_empty _ _ _ H), Hig. cbn [bind].
    split; [reflexivity|]. split; [cbn; now rewrite Hfst|].
    constructor; [reflexivity|exact Hall].
Qed.

Lemma id3_empty so self target a attrs fuel :
  data self = [] ->
  _id3 so (S fuel) self target (a :: attrs) []
  = Some (Ok (mkNode (Name a) attr_t [], a :: attrs)).
Proof.
  intros H. cbn [_id3].
  change (column target []) with (@Ok (list string) []). cbv beta iota.
  rewrite set_iter_nil.
  destruct (info_gain_empty self target (a :: attrs) H)
    as (ig & Hig & Hfst & Hall).
  rewrite Hig. cbn [bind].
  destruct ig as [|[a' k] ig]; [discriminate|].
  injection Hfst as -> _. inversion Hall as [|? ? Hk Hall']; subst.
  cbn [snd] in Hk. subst k. rewrite (max_by_all_equal _ _ _ Hall').
  change (column a []) with (@Ok (list string) []). cbv beta iota.
  rewrite set_iter_nil. reflexivity.
Qed.

(** C5, as the code has it: no exception of the name [EmptyDatasetError]
    exists.  On a table without records [entropy] returns 0; with a first
    header [a], [build_tree] returns a test of [a] without children and
    [accuracy] raises [ZeroDivisionError]; without headers both raise
    [ValueError]. *)
Theorem empty_table_outcomes (so : SetOrder) (hdrs : list string)
    (tgt : string) :
  let self := new_dataset hdrs tgt [] in
  entropy self tgt None None = Ok 0%R /\
  match hdrs with
  | [] =>
      build_tree so self = Some (Raise ValueError) /\
      accuracy so self = Some (Raise ValueError)
  | a :: _ =>
      build_tree so self
      = Some (Ok (mkNode (Name a) attr_t [],
                  mkDataset [] hdrs tgt
                            (Some (mkNode (Name a) attr_t [])) None)) /\
      accuracy so self = Some (Raise ZeroDivisionError)
  end.
Proof.
  intros self. split; [reflexivity|].
  destruct hdrs as [|a headers'].
  - unfold accuracy, derive_ruleset, build_tree. cbn -[most_common].
    rewrite set_iter_nil. unfold most_common. rewrite set_iter_nil. cbn.
    split; reflexivity.
  - assert (Hb : build_tree so self
                 = Some (Ok (mkNode (Name a) attr_t [],
                             mkDataset [] (a :: headers') tgt
                                       (Some (mkNode (Name a) attr_t [])) None))).
    { unfold build_tree, self, new_dataset. cbn [headers target data].
      now rewrite id3_empty. }
    split; [exact Hb|].
    unfold accuracy, derive_ruleset.
    cbn [ruleset tree self new_dataset]. fold self. rewrite Hb. reflexivity.
Qed.

(** C5 fails as stated: on the table with the header line [A T] and no
    record, tree construction returns a node and [accuracy] raises
    [ZeroDivisionError]. *)
Lemma empty_table_no_empty_dataset_error :
  data (new_dataset ["A"] "T" []) = [] /\
  build_tree insertion_order (new_dataset ["A"] "T" [])
  = Some (Ok (mkNode (Name "A") attr_t [],
              mkDataset [] ["A"] "T" (Some (mkNode (Name "A") attr_t [])) None)) /\
  accuracy insertion_order (new_dataset ["A"] "T" [])
  = Some (Raise ZeroDivisionError).
Proof. repeat split. Qed.

(** ** Running the builder on a given table *)

Lemma leb_iff a b : String.leb a b = true <-> a = b \/ String_as_OT.lt a b.
Proof.
  unfold String.leb. rewrite <- String_as_OT.cmp_lt, <- String_as_OT.cmp_eq.
  unfold String_as_OT.cmp. destruct (String.compare a b); intuition congruence.
Qed.

Lemma leb_trans a b c :
  String.leb a b = true -> String.leb b c = true -> String.leb a c = true.
Proof.
  rewrite !leb_iff. intros [->|H1] [->|H2]; auto.
  right. eapply String_as_OT.lt_trans; eauto.
Qed.

Lemma leb_false a b : String.leb a b = false -> String.leb b a = true.
Proof. intros H. destruct (String.leb_total a b); congruence. Qed.

Lemma insert_sorted_comm x y l :
  insert_sorted x (insert_sorted y l) = insert_sorted y (insert_sorted x l).
Proof.
  induction l as [|z l IH]; cbn [insert_sorted].
  - destruct (String.leb x y) eqn:Exy, (String.leb y x) eqn:Eyx;
      cbn [insert_sorted]; rewrite ?Exy, ?Eyx; try reflexivity.
    + now rewrite (String.leb_antisym _ _ Exy Eyx).
    + apply leb_false in Exy. congruence.
  - destruct (String.leb y z) eqn:Eyz, (String.leb x z) eqn:Exz;
      cbn [insert_sorted]; rewrite ?Eyz, ?Exz.
    + destruct (String.leb x y) eqn:Exy, (String.leb y x) eqn:Eyx;
        try reflexivity.
      * now rewrite (String.leb_antisym _ _ Exy Eyx).
      * apply leb_false in Exy. congruence.
    + destruct (String.leb x y) eqn:Exy; [|reflexivity].
      rewrite (leb_trans _ _ _ Exy Eyz) in Exz. discriminate.
    + destruct (String.leb y x) eqn:Eyx; [|reflexivity].
      rewrite (leb_trans _ _ _ Eyx Exz) in Eyz. discriminate.
    + now rewrite IH.
Qed.

(** Sorting forgets the order of its argument. *)
Lemma sorted_perm_eq l1 l2 : Permutation l1 l2 -> sorted l1 = sorted l2.
Proof.
  induction 1; cbn [sorted fold_right]; try congruence.
  - fold (sorted l). fold (sorted l'). congruence.
  - apply insert_sorted_comm.
Qed.

Lemma sorted_set_canonical (so : SetOrder) l :
  sorted (set_iter so l) = sorted (dict_keys l).
Proof. apply sorted_perm_eq, set_iter_perm. Qed.

Lemma set_iter_one (so : SetOrder) l v :
  dict_keys l = [v] -> set_iter so l = [v].
Proof.
  intros H. apply Permutation_length_1_inv, Permutation_sym.
  rewrite <- H. apply set_iter_perm.
Qed.

Lemma set_iter_not_one (so : SetOrder) l :
  length (dict_keys l) <> 1 ->
  match set_iter so l with [_] => False | _ => True end.
Proof.
  intros H. pose proof (Permutation_length (set_iter_perm so l)) as Hl.
  destruct (set_iter so l) as [|v [|w r]]; auto.
Qed.

Section Equations.

Variable so : SetOrder.
Variable self : Dataset.
Variable tgt : string.

Lemma id3_pure fuel attrs dataset t_values v :
  column tgt dataset = Ok t_values ->
  dict_keys t_values = [v] ->
  _id3 so (S fuel) self tgt attrs dataset = Some (Ok (leaf tgt v, attrs)).
Proof.
  intros Hc Hk. cbn [_id3]. rewrite Hc, (set_iter_one so _ _ Hk). reflexivity.
Qed.

Lemma id3_majority fuel dataset t_values :
  column tgt dataset = Ok t_values ->
  length (dict_keys t_values) <> 1 ->
  _id3 so (S fuel) self tgt [] dataset
  = match most_common so t_values with
    | Ok common => Some (Ok (leaf tgt common, []))
    | Raise e => Some (Raise e)
    end.
Proof.
  intros Hc Hk. cbn [_id3]. rewrite Hc.
  pose proof (set_iter_not_one so _ Hk) as Hn.
  destruct (set_iter so t_values) as [|v [|w r]]; [reflexivity|destruct Hn|].
  reflexivity.
Qed.

Lemma id3_test fuel attrs dataset t_values info_gain attr a_col :
  column tgt dataset = Ok t_values ->
  length (dict_keys t_values) <> 1 ->
  attrs <> [] ->
  mapM (fun a => g <- information_gain self tgt a ;; Ok (a, g)) attrs
  = Ok info_gain ->
  max_by Rgtb info_gain = Ok attr ->
  column attr dataset = Ok a_col ->
  _id3 so (S fuel) self tgt attrs dataset
  = match branches so (_id3 so fuel self tgt) tgt attr dataset
            (sorted (dict_keys a_col)) [] attrs with
    | None => None
    | Some (Raise e) => Some (Raise e)
    | Some (Ok r) => Some (Ok (mkNode (Name attr) attr_t (fst r), snd r))
    end.
Proof.
  intros Hc Hk Hne Hig Hmax Ha. cbn [_id3]. rewrite Hc.
  pose proof (set_iter_not_one so _ Hk) as Hn.
  assert (E : forall X Y : option (result (Node * list string)),
             match attrs with [] => X | _ :: _ => Y end = Y).
  { destruct attrs; [contradiction|reflexivity]. }
  destruct (set_iter so t_values) as [|v [|w r]]; [|destruct Hn|];
    rewrite E, Hig; cbn [bind]; rewrite Hmax, Ha, sorted_set_canonical;
    reflexivity.
Qed.

Lemma branches_step rec attr dataset val rest acc attrs t0 sub0 sub attrs' :
  select attr val dataset = Ok (t0 :: sub0) ->
  rec (drop_attr attr attrs) (t0 :: sub0) = Some (Ok (sub, attrs')) ->
  branches so rec tgt attr dataset (val :: rest) acc attrs
  = branches so rec tgt attr dataset rest
      (acc ++ [mkNode (Name val) val_t [sub]]) attrs'.
Proof. intros Hs Hr. cbn [branches]. rewrite Hs, Hr. reflexivity. Qed.

(** The vote has a winner when one value is more frequent than every other. *)
Lemma most_common_winner values v :
  In v values ->
  (forall w, In w values -> w <> v -> count w values < count v values) ->
  most_common so values = Ok v.
Proof.
  intros Hv Hwin. unfold most_common.
  assert (Hin : In v (set_iter so values)) by now apply set_iter_In.
  assert (Hall : forall w, In w (set_iter so values) ->
                   w <> v -> count w values < count v values).
  { intros w Hw. apply Hwin. now apply set_iter_In in Hw. }
  destruct (set_iter so values) as [|x xs]; [destruct Hin|].
  cbn [map max_by]. f_equal.
  assert (G : forall l best,
            (forall w, In w l -> w <> v -> count w values < count v values) ->
            (fst best = v \/ (count (fst best) values < count v values /\ In v l)) ->
            snd best = count (fst best) values ->
            fst (fold_left
                   (fun (best y : string * nat) =>
                      if Nat.ltb (snd best) (snd y) then y else best)
                   (map (fun v0 => (v0, count v0 values)) l) best) = v).
  { induction l as [|y l IH]; intros best Hl Hbest Hsnd; cbn [map fold_left].
    - destruct Hbest as [H|[_ []]]. exact H.
    - cbn [snd]. destruct (Nat.ltb (snd best) (count y values)) eqn:E.
      + apply IH; [intros w Hw Hw'; apply Hl; [now right|exact Hw']| |reflexivity].
        cbn [fst]. destruct (string_dec y v) as [->|Hne]; [now left|].
        right. split; [apply Hl; [now left|exact Hne]|].
        destruct Hbest as [Hb|[_ [Hb|Hb]]]; [|congruence|exact Hb].
        exfalso. apply Nat.ltb_lt in E. rewrite Hsnd, Hb in E.
        specialize (Hl y (or_introl eq_refl) Hne). lia.
      + apply IH; [intros w Hw Hw'; apply Hl; [now right|exact Hw']| |exact Hsnd].
        destruct Hbest as [Hb|[Hlt [Hb|Hb]]].
        * now left.
        * exfalso. subst y. apply Nat.ltb_ge in E. rewrite Hsnd in E. lia.
        * right. now split. }
  apply G.
  - intros w Hw. apply Hall. now right.
  - cbn [fst]. destruct (string_dec x v) as [->|Hne]; [now left|].
    right. split; [apply Hall; [now left|exact Hne]|].
    destruct Hin as [Hx|Hx]; [congruence|exact Hx].
  - reflexivity.
Qed.

End Equations.

Lemma Rgtb_same x y : x = y -> Rgtb x y = false.
Proof. intros ->. apply Rgtb_irrefl. Qed.

Lemma most_common_In so values v : most_common so values = Ok v -> In v values.
Proof.
  intros H. apply max_by_In in H. rewrite map_map, map_id in H.
  now apply set_iter_In in H.
Qed.

(** ** The attribute list is one object for all calls *)

Lemma id3_one_attr (so : SetOrder) :
  _id3 so 2 table_one_attr "T" ["A"] (data table_one_attr)
  = Some (Ok (tree_one_attr, [])).
Proof.
  erewrite (id3_test so table_one_attr "T" 1 ["A"] _ _ _ "A");
    [|reflexivity|cbn; discriminate|discriminate|reflexivity|reflexivity
     |reflexivity].
  change (sorted (dict_keys ["a1"; "a1"; "a2"])) with ["a1"; "a2"].
  erewrite branches_step; [|reflexivity|eapply id3_pure; reflexivity].
  erewrite branches_step; [|reflexivity|eapply id3_pure; reflexivity].
  reflexivity.
Qed.

Lemma id3_one_attr_again (so : SetOrder) :
  _id3 so 1 table_one_attr_built "T" [] (data table_one_attr)
  = Some (Ok (leaf "T" "y", [])).
Proof.
  erewrite id3_majority; [|reflexivity|cbn; discriminate].
  rewrite (most_common_winner so _ "y"); [reflexivity|cbn; tauto|].
  intros w [<-|[<-|[<-|[]]]] Hw; try congruence. cbn. lia.
Qed.

(** C2, what the code does on [table_xor]: the call of [_id3] with the
    attributes [A] and [B] returns with its list empty, and in the tree
    the branch [a0] tests [B] while the branch [a1], whose two records
    differ in [B] and in the target, is a label decided by a vote: [B]
    was taken out of the one list while the branch [a0] was built. *)
Theorem attrs_shared_between_branches (so : SetOrder) :
  exists v, (v = "y" \/ v = "n") /\
    _id3 so 3 table_xor "T" ["A"; "B"] (data table_xor)
    = Some (Ok (tree_xor v, [])).
Proof.
  destruct (most_common_ok so ["y"; "n"]) as (v & Hv); [discriminate|].
  exists v. split.
  { apply most_common_In in Hv. cbn in Hv. intuition. }
  erewrite (id3_test so table_xor "T" 2 ["A"; "B"] _ _ _ "A");
    [|reflexivity|cbn; discriminate|discriminate|reflexivity|
     |reflexivity].
  2:{ cbn [max_by fold_left snd]. rewrite Rgtb_same by reflexivity.
      reflexivity. }
  change (sorted (dict_keys ["a0"; "a0"; "a1"; "a1"])) with ["a0"; "a1"].
  erewrite branches_step; [|reflexivity|].
  2:{ change (drop_attr "A" ["A"; "B"]) with ["B"].
      erewrite (id3_test so table_xor "T" 1 ["B"] _ _ _ "B");
        [|reflexivity|cbn; discriminate|discriminate|reflexivity|reflexivity
         |reflexivity].
      change (sorted (dict_keys ["b0"; "b1"])) with ["b0"; "b1"].
      erewrite branches_step; [|reflexivity|eapply id3_pure; reflexivity].
      erewrite branches_step; [|reflexivity|eapply id3_pure; reflexivity].
      reflexivity. }
  erewrite branches_step; [|reflexivity|].
  2:{ change (drop_attr "A" []) with (@nil string).
      erewrite id3_majority; [|reflexivity|cbn; discriminate].
      rewrite Hv. reflexivity. }
  reflexivity.
Qed.

(** C3, what the code does on [table_one_attr]: the first [build_tree]
    returns a test of [A] and leaves the object without headers, its
    records untouched; the second [build_tree] on that object returns the
    single label [y]. *)
Theorem build_tree_twice_differs (so : SetOrder) :
  build_tree so table_one_attr = Some (Ok (tree_one_attr, table_one_attr_built)) /\
  data table_one_attr_built = data table_one_attr /\
  exists self'',
    build_tree so table_one_attr_built = Some (Ok (leaf "T" "y", self'')) /\
    leaf "T" "y" <> tree_one_attr.
Proof.
  split; [|split; [reflexivity|]].
  - unfold build_tree.
    change (_id3 so (S (length (headers table_one_attr))) table_one_attr
              (target table_one_attr) (headers table_one_attr)
              (data table_one_attr))
      with (_id3 so 2 table_one_attr "T" ["A"] (data table_one_attr)).
    rewrite id3_one_attr. reflexivity.
  - eexists. split; [|discriminate]. unfold build_tree.
    change (_id3 so (S (length (headers table_one_attr_built)))
              table_one_attr_built (target table_one_attr_built)
              (headers table_one_attr_built) (data table_one_attr_built))
      with (_id3 so 1 table_one_attr_built "T" [] (data table_one_attr)).
    rewrite id3_one_attr_again. reflexivity.
Qed.

(** ** Sums of reals *)

Section Sums.

Open Scope R_scope.

Context {A : Type}.

Lemma Rsum_app (f : A -> R) l1 l2 : Rsum f (l1 ++ l2) = Rsum f l1 + Rsum f l2.
Proof.
  induction l1 as [|x l1 IH].
  - change (Rsum f l2 = 0 + Rsum f l2). lra.
  - change (f x + Rsum f (l1 ++ l2) = f x + Rsum f l1 + Rsum f l2).
    rewrite IH. lra.
Qed.

Lemma Rsum_cons (f : A -> R) x l : Rsum f (x :: l) = f x + Rsum f l.
Proof. reflexivity. Qed.

Lemma Rsum_ext (f g : A -> R) l :
  (forall x, In x l -> f x = g x) -> Rsum f l = Rsum g l.
Proof.
  induction l as [|x l IH]; intros H; [reflexivity|].
  rewrite !Rsum_cons, (H x), IH; [reflexivity| |now left].
  intros; apply H; now right.
Qed.


Lemma Rsum_plus (f g : A -> R) l :
  Rsum (fun x => f x + g x) l = Rsum f l + Rsum g l.
Proof.
  induction l as [|x l IH]; [cbn; lra|]. rewrite !Rsum_cons, IH. lra.
Qed.

Lemma Rsum_scal (c : R) (f : A -> R) l :
  Rsum (fun x => c * f x) l = c * Rsum f l.
Proof.
  induction l as [|x l IH]; [cbn; lra|]. rewrite !Rsum_cons, IH. lra.
Qed.

Lemma Rsum_opp (f : A -> R) l : Rsum (fun x => - f x) l = - Rsum f l.
Proof.
  induction l as [|x l IH]; [cbn; lra|]. rewrite !Rsum_cons, IH. lra.
Qed.

Lemma Rsum_const (c : R) (l : list A) :
  Rsum (fun _ => c) l = INR (length l) * c.
Proof.
  induction l as [|x l IH]; [cbn; lra|].
  rewrite Rsum_cons, IH. cbn [length]. rewrite S_INR. lra.
Qed.

Lemma Rsum_nonneg (f : A -> R) l :
  (forall x, In x l -> 0 <= f x) -> 0 <= Rsum f l.
Proof.
  intros H. induction l as [|x l IH]; [cbn; lra|].
  rewrite Rsum_cons. pose proof (H x (or_introl eq_refl)).
  assert (0 <= Rsum f l) by (apply IH; intros; apply H; now right). lra.
Qed.

(** A sum of non-negative terms is 0 only when every term is. *)
Lemma Rsum_zero (f : A -> R) l :
  (forall x, In x l -> 0 <= f x) -> Rsum f l = 0 ->
  forall x, In x l -> f x = 0.
Proof.
  induction l as [|y l IH]; intros Hpos Hsum x Hx; [destruct Hx|].
  rewrite Rsum_cons in Hsum.
  pose proof (Hpos y (or_introl eq_refl)).
  assert (0 <= Rsum f l) by (apply Rsum_nonneg; intros; apply Hpos; now right).
  destruct Hx as [<-|Hx]; [lra|].
  apply IH; auto; [intros; apply Hpos; now right|lra].
Qed.

Lemma fold_left_minus (g : A -> R) l a :
  fold_left (fun e x => e - g x) l a = a - Rsum g l.
Proof.
  revert a. induction l as [|x l IH]; intros a; cbn [fold_left].
  - cbn. lra.
  - rewrite IH, Rsum_cons. lra.
Qed.

Lemma foldM_plus (g : A -> result R) (h : A -> R) l a :
  (forall x, In x l -> g x = Ok (h x)) ->
  foldM (fun e x => y <- g x ;; Ok (e + y)) l a = Ok (a + Rsum h l).
Proof.
  revert a. induction l as [|x l IH]; intros a H; cbn [foldM].
  - cbn. f_equal. lra.
  - rewrite (H x (or_introl eq_refl)). cbn [bind].
    rewrite IH by (intros; apply H; now right).
    rewrite Rsum_cons. f_equal. lra.
Qed.

End Sums.


(** ** The logarithm *)

Lemma ln_le_minus_1 (x : R) : (0 < x)%R -> (ln x <= x - 1)%R.
Proof.
  intros Hx. pose proof (exp_ineq1_le (ln x)) as H.
  rewrite exp_ln in H by exact Hx. lra.
Qed.


Lemma ln_2_pos : (0 < ln 2)%R.
Proof. rewrite <- ln_1. apply ln_increasing; lra. Qed.

(** ** Entropy of a distribution *)

Section Distribution.

Open Scope R_scope.

Context {A : Type}.
Variable K : list A.
Variable p : A -> R.
Hypothesis p_pos : forall v, In v K -> 0 < p v.
Hypothesis p_sum : Rsum p K = 1.

Lemma p_le_1 v : In v K -> p v <= 1.
Proof.
  intros Hv. apply in_split in Hv as (l1 & l2 & E).
  assert (H : Rsum p K = Rsum p l1 + (p v + Rsum p l2)).
  { rewrite E, Rsum_app, Rsum_cons. reflexivity. }
  assert (0 <= Rsum p l1).
  { apply Rsum_nonneg. intros x Hx. apply Rlt_le, p_pos. rewrite E.
    apply in_or_app. now left. }
  assert (0 <= Rsum p l2).
  { apply Rsum_nonneg. intros x Hx. apply Rlt_le, p_pos. rewrite E.
    apply in_or_app. right. now right. }
  lra.
Qed.

Lemma plogp_nonpos v : In v K -> p v * log2 (p v) <= 0.
Proof.
  intros Hv. pose proof (p_pos v Hv) as Hp. pose proof (p_le_1 v Hv) as Hq.
  assert (Hl : ln (p v) <= 0).
  { pose proof (ln_le_minus_1 (p v) Hp). lra. }
  unfold log2. pose proof ln_2_pos as H2.
  assert (ln (p v) / ln 2 <= 0).
  { unfold Rdiv. pose proof (Rinv_0_lt_compat _ H2). nra. }
  nra.
Qed.

Lemma entropy_nonneg : 0 <= - Rsum (fun v => p v * log2 (p v)) K.
Proof.
  rewrite <- Rsum_opp. apply Rsum_nonneg. intros v Hv.
  pose proof (plogp_nonpos v Hv). lra.
Qed.

Lemma entropy_zero_iff :
  - Rsum (fun v => p v * log2 (p v)) K = 0 <-> forall v, In v K -> p v = 1.
Proof.
  split.
  - intros H v Hv. rewrite <- Rsum_opp in H.
    assert (Hz : - (p v * log2 (p v)) = 0).
    { apply (Rsum_zero (fun v => - (p v * log2 (p v))) K); auto.
      intros x Hx. pose proof (plogp_nonpos x Hx). lra. }
    pose proof (p_pos v Hv) as Hp.
    assert (Hl : log2 (p v) = 0) by nra.
    unfold log2 in Hl. pose proof ln_2_pos as H2.
    assert (Hln : ln (p v) = 0).
    { apply (Rmult_eq_reg_r (/ ln 2)); [|apply Rinv_neq_0_compat; lra].
      unfold Rdiv in Hl. lra. }
    destruct (Req_dec (p v) 1) as [E|E]; [exact E|].
    exfalso. exact (ln_neq_0 _ E Hp Hln).
  - intros H. rewrite (Rsum_ext _ (fun _ => 0)); [rewrite Rsum_const; lra|].
    intros v Hv. rewrite (H v Hv). unfold log2. rewrite ln_1. lra.
Qed.

Hypothesis K_nonempty : K <> [].






End Distribution.

(** ** Counting *)

Lemma count_cons x v l :
  count v (x :: l) = (if String.eqb x v then 1 else 0) + count v l.
Proof.
  unfold count. cbn [count_occ].
  destruct (string_dec x v) as [->|Hne].
  - now rewrite String.eqb_refl.
  - apply String.eqb_neq in Hne. now rewrite Hne.
Qed.

Lemma indicator_sum (x : string) (a : R) (K : list string) :
  NoDup K ->
  Rsum (fun v => if String.eqb x v then a else 0%R) K
  = if in_dec string_dec x K then a else 0%R.
Proof.
  induction 1 as [|y K Hy Hnd IH]; [reflexivity|].
  rewrite Rsum_cons, IH.
  destruct (String.eqb x y) eqn:E.
  - apply String.eqb_eq in E. subst y.
    destruct (in_dec string_dec x K) as [i|_]; [contradiction|].
    destruct (in_dec string_dec x (x :: K)) as [_|n]; [lra|].
    exfalso. apply n. now left.
  - apply String.eqb_neq in E.
    destruct (in_dec string_dec x K) as [i|n];
      destruct (in_dec string_dec x (y :: K)) as [i'|n']; try lra.
    + exfalso. apply n'. now right.
    + destruct i'; [congruence|contradiction].
Qed.

Lemma count_sum (K l : list string) :
  NoDup K -> (forall x, In x l -> In x K) ->
  Rsum (fun v => INR (count v l)) K = INR (length l).
Proof.
  intros Hnd. induction l as [|x l IH]; intros Hin.
  - rewrite (Rsum_ext _ (fun _ => 0%R)) by reflexivity.
    rewrite Rsum_const. cbn. lra.
  - rewrite (Rsum_ext _ (fun v => ((if String.eqb x v then 1 else 0)
                                   + INR (count v l))%R)).
    2:{ intros v _. rewrite count_cons, plus_INR.
        destruct (String.eqb x v); reflexivity. }
    rewrite Rsum_plus, indicator_sum, IH by auto using in_cons.
    destruct (in_dec string_dec x K) as [_|n].
    + cbn [length]. rewrite S_INR. lra.
    + exfalso. apply n, Hin. now left.
Qed.

Lemma count_pos v l : In v l -> 0 < count v l.
Proof. intros H. now apply count_occ_In. Qed.

Lemma count_full v l : count v l = length l -> forall w, In w l -> w = v.
Proof.
  induction l as [|x l IH]; intros H w Hw; [destruct Hw|].
  rewrite count_cons in H. cbn [length] in H.
  pose proof (count_occ_bound string_dec v l) as Hb. unfold count in *.
  destruct (String.eqb x v) eqn:E; [|lia].
  apply String.eqb_eq in E. subst x.
  destruct Hw as [<-|Hw]; [reflexivity|]. apply IH; [lia|exact Hw].
Qed.

Lemma count_all_same v l :
  (forall w, In w l -> w = v) -> count v l = length l.
Proof.
  induction l as [|x l IH]; intros H; [reflexivity|].
  rewrite count_cons, (H x (or_introl eq_refl)), String.eqb_refl.
  cbn [length]. rewrite IH; [reflexivity|]. intros; apply H; now right.
Qed.

Section Frequencies.

Open Scope R_scope.

Variable values : list string.
Hypothesis values_nonempty : values <> [].

Lemma length_pos : 0 < INR (length values).
Proof. apply lt_0_INR. destruct values; [contradiction|cbn; lia]. Qed.

Lemma freq_pos v : In v (dict_keys values) -> 0 < freq v values.
Proof.
  intros Hv. apply (proj1 (dict_keys_In _ _)) in Hv. unfold freq.
  apply Rdiv_lt_0_compat; [|apply length_pos].
  apply lt_0_INR. now apply count_pos.
Qed.

Lemma freq_sum : Rsum (fun v => freq v values) (dict_keys values) = 1.
Proof.
  unfold freq, Rdiv.
  rewrite (Rsum_ext _ (fun v => / INR (length values) * INR (count v values)))
    by (intros; apply Rmult_comm).
  rewrite Rsum_scal, count_sum.
  - pose proof length_pos. field. lra.
  - apply dict_keys_NoDup.
  - intros x. apply dict_keys_In.
Qed.



Lemma entropy_values_sum :
  entropy_values values
  = - Rsum (fun v => freq v values * log2 (freq v values)) (dict_keys values).
Proof.
  unfold entropy_values.
  rewrite (fold_left_minus (fun v => freq v values * log2 (freq v values))).
  lra.
Qed.

Lemma freq_one_iff :
  (forall v, In v (dict_keys values) -> freq v values = 1)
  <-> (forall v w, In v values -> In w values -> v = w).
Proof.
  pose proof length_pos as Hn. split.
  - intros H v w Hv Hw.
    assert (Hc : forall u, In u values -> count u values = length values).
    { intros u Hu. apply INR_eq.
      specialize (H u (proj2 (dict_keys_In _ _) Hu)). unfold freq in H.
      apply (Rmult_eq_compat_r (INR (length values))) in H.
      unfold Rdiv in H. rewrite Rmult_assoc, Rinv_l in H; lra. }
    rewrite (count_full _ _ (Hc w Hw) v Hv). reflexivity.
  - intros H v Hv. apply (proj1 (dict_keys_In _ _)) in Hv. unfold freq.
    rewrite (count_all_same v values) by (intros w Hw; now apply H).
    field. lra.
Qed.


End Frequencies.



(** ** Conditional entropy *)




Section Contingency.

Open Scope R_scope.

Variables KS KT : list string.
Variable c : string -> string -> R.
Variables cS cT : string -> R.
Variable n : R.
Hypothesis n_pos : 0 < n.
Hypothesis cS_pos : forall s, In s KS -> 0 < cS s.
Hypothesis cT_pos : forall t, In t KT -> 0 < cT t.
Hypothesis c_nonneg : forall s t, In s KS -> In t KT -> 0 <= c s t.
Hypothesis row_sum : forall s, In s KS -> Rsum (c s) KT = cS s.
Hypothesis col_sum : forall t, In t KT -> Rsum (fun s => c s t) KS = cT t.
Hypothesis cT_sum : Rsum cT KT = n.





End Contingency.

(** ** Information gain *)

Lemma columns_pairs s r dataset sv tv :
  column s dataset = Ok sv -> column r dataset = Ok tv ->
  exists ps,
    map fst ps = sv /\ map snd ps = tv /\
    forall val,
      column r (filter (has_value s val) dataset) = Ok (part val ps).
Proof.
  revert sv tv. induction dataset as [|tup rest IH]; intros sv tv Hs Hr.
  - inversion Hs; inversion Hr; subst. exists []. repeat split.
  - apply column_cons_inv in Hs as (v & sv' & Hv & Hs & ->).
    apply column_cons_inv in Hr as (w & tv' & Hw & Hr & ->).
    destruct (IH _ _ Hs Hr) as (ps & Hfst & Hsnd & Hpart).
    exists ((v, w) :: ps). cbn [map fst snd]. rewrite Hfst, Hsnd.
    split; [reflexivity|]. split; [reflexivity|]. intros val.
    unfold part. cbn [filter fst]. rewrite (has_value_true _ _ _ _ Hv).
    destruct (String.eqb v val); [|apply Hpart].
    unfold column in *. cbn [mapM map snd]. rewrite Hw. cbn [bind].
    fold (part val ps). now rewrite Hpart.
Qed.

Lemma part_length val ps : length (part val ps) = count val (map fst ps).
Proof.
  unfold part. induction ps as [|[v w] ps IH]; [reflexivity|].
  cbn [filter map fst]. rewrite count_cons.
  destruct (String.eqb v val); cbn [map length]; rewrite IH; reflexivity.
Qed.



Lemma foldM_ext {A S} (f g : S -> A -> result S) l s :
  (forall s x, f s x = g s x) -> foldM f l s = foldM g l s.
Proof.
  intros H. revert s. induction l as [|x l IH]; intros s; [reflexivity|].
  cbn [foldM]. rewrite H. destruct (g s x); cbn [bind]; auto.
Qed.

(** The value of [entropy] with a splitting attribute. *)
Lemma entropy_split self r c0 s dataset sv ps :
  dataset <> [] ->
  column (String c0 s) dataset = Ok sv ->
  (forall val, column r (filter (has_value (String c0 s) val) dataset)
               = Ok (part val ps)) ->
  entropy self r (Some (String c0 s)) (Some dataset)
  = Ok (0 + Rsum (fun val => freq val sv * entropy_values (part val ps))
                 (dict_keys sv))%R.
Proof.
  intros Hne Hs Hpart. unfold entropy.
  assert (Hd : or_data self (Some dataset) = dataset).
  { destruct dataset; [contradiction|reflexivity]. }
  rewrite Hd, Hs. cbn [bind].
  rewrite (foldM_ext _
             (fun e val =>
                y <- (subset <- select (String c0 s) val dataset ;;
                      e' <- entropy_target self r (Some subset) ;;
                      Ok (INR (count val sv) / INR (length sv) * e')%R) ;;
                Ok (e + y)%R)).
  2:{ intros e val. destruct (select _ val dataset) as [sub|?]; cbn [bind];
        [|reflexivity].
      destruct (entropy_target self r (Some sub)); reflexivity. }
  apply foldM_plus. intros val Hval. apply (proj1 (dict_keys_In _ _)) in Hval.
  destruct (select_nonempty _ val _ _ Hs Hval) as (t0 & sub0 & Hsel).
  rewrite Hsel. cbn [bind]. unfold entropy_target, or_data.
  rewrite (select_filter _ val _ _ Hs) in Hsel. injection Hsel as Hsel.
  rewrite <- Hsel, Hpart. reflexivity.
Qed.

Lemma count_zero v l : ~ In v l -> count v l = 0.
Proof. intros H. now apply count_occ_not_In. Qed.





(** ** The gain is taken over the whole table *)

Lemma log2_of_1 x : (x = 1)%R -> log2 x = 0%R.
Proof. intros ->. unfold log2. rewrite ln_1. lra. Qed.

Lemma log2_of_half x : (x = 1 / 2)%R -> log2 x = (-1)%R.
Proof.
  intros ->. unfold log2. pose proof ln_2_pos.
  replace (1 / 2)%R with (/ 2)%R by lra. rewrite ln_Rinv by lra. field. lra.
Qed.

Ltac eval_logs :=
  repeat match goal with
    | |- context [log2 ?x] =>
        first [ rewrite (log2_of_1 x) by (simpl; lra)
              | rewrite (log2_of_half x) by (simpl; lra) ]
    end.

Ltac eval_gain :=
  cbv -[log2 INR Rdiv Rminus Rplus Rmult]; f_equal; eval_logs; simpl; lra.

Lemma gain_X : information_gain table_gain "T" "X" = Ok (1 / 2)%R.
Proof. eval_gain. Qed.

Lemma gain_Y : information_gain table_gain "T" "Y" = Ok (1 / 4)%R.
Proof. eval_gain. Qed.

Lemma gain_Z : information_gain table_gain "T" "Z" = Ok 0%R.
Proof. eval_gain. Qed.

Lemma spec_gain_Y : spec_information_gain table_gain "T" "Y" subset_2 = Ok 0%R.
Proof. eval_gain. Qed.

Lemma spec_gain_Z : spec_information_gain table_gain "T" "Z" subset_2 = Ok 1%R.
Proof. eval_gain. Qed.

Lemma Rgtb_false x y : (x <= y)%R -> Rgtb x y = false.
Proof. intros H. unfold Rgtb. destruct (Rlt_dec y x); [lra|reflexivity]. Qed.

Lemma id3_subset_2 so :
  _id3 so 3 table_gain "T" ["Y"; "Z"] subset_2 = Some (Ok (tree_Y, [])).
Proof.
  erewrite (id3_test so table_gain "T" 2 ["Y"; "Z"] _ _
              [("Y", (1 / 4)%R); ("Z", 0%R)] "Y");
    [|reflexivity|cbn; discriminate|discriminate| | |reflexivity].
  2:{ cbn [mapM]. rewrite gain_Y, gain_Z. reflexivity. }
  2:{ cbn [max_by fold_left snd fst]. rewrite Rgtb_false by lra. reflexivity. }
  change (sorted (dict_keys ["y0"; "y0"; "y0"; "y0"])) with ["y0"].
  erewrite branches_step; [|reflexivity|].
  2:{ change (drop_attr "Y" ["Y"; "Z"]) with ["Z"].
      erewrite (id3_test so table_gain "T" 1 ["Z"] _ _ [("Z", 0%R)] "Z");
        [|reflexivity|cbn; discriminate|discriminate| |reflexivity|reflexivity].
      2:{ cbn [mapM]. rewrite gain_Z. reflexivity. }
      change (sorted (dict_keys ["z0"; "z0"; "z1"; "z1"])) with ["z0"; "z1"].
      erewrite branches_step; [|reflexivity|eapply id3_pure; reflexivity].
      erewrite branches_step; [|reflexivity|eapply id3_pure; reflexivity].
      reflexivity. }
  reflexivity.
Qed.

Lemma id3_table_gain so :
  _id3 so 4 table_gain "T" ["X"; "Y"; "Z"] (data table_gain)
  = Some (Ok (tree_gain, [])).
Proof.
  erewrite (id3_test so table_gain "T" 3 ["X"; "Y"; "Z"] _ _
              [("X", (1 / 2)%R); ("Y", (1 / 4)%R); ("Z", 0%R)] "X");
    [|reflexivity|cbn; discriminate|discriminate| | |reflexivity].
  2:{ cbn [mapM]. rewrite gain_X, gain_Y, gain_Z. reflexivity. }
  2:{ cbn [max_by fold_left snd fst].
      rewrite (Rgtb_false (1 / 4) (1 / 2)) by lra. cbn [snd].
      rewrite (Rgtb_false 0 (1 / 2)) by lra. reflexivity. }
  change (sorted (dict_keys ["0"; "0"; "1"; "1"; "2"; "2"; "2"; "2"]))
    with ["0"; "1"; "2"].
  erewrite branches_step; [|reflexivity|eapply id3_pure; reflexivity].
  erewrite branches_step; [|reflexivity|eapply id3_pure; reflexivity].
  erewrite branches_step; [|reflexivity|apply id3_subset_2].
  reflexivity.
Qed.

(** C1, what the code does on [table_gain]: the tree tests [X] at the
    root and, in the call for the records with the value [2] of [X] and
    the attributes [Y] and [Z], tests [Y].  There [information_gain] is
    1/4 for [Y] and 0 for [Z], as over the whole table, while over the
    records of the call the gain of [Y] is 0 and the gain of [Z] is 1. *)
Theorem gain_over_whole_table (so : SetOrder) :
  _id3 so 4 table_gain "T" ["X"; "Y"; "Z"] (data table_gain)
  = Some (Ok (tree_gain, [])) /\
  select "X" "2" (data table_gain) = Ok subset_2 /\
  _id3 so 3 table_gain "T" ["Y"; "Z"] subset_2 = Some (Ok (tree_Y, [])) /\
  information_gain table_gain "T" "Y" = Ok (1 / 4)%R /\
  information_gain table_gain "T" "Z" = Ok 0%R /\
  spec_information_gain table_gain "T" "Y" subset_2 = Ok 0%R /\
  spec_information_gain table_gain "T" "Z" subset_2 = Ok 1%R.
Proof.
  split; [apply id3_table_gain|]. split; [reflexivity|].
  split; [apply id3_subset_2|].
  split; [apply gain_Y|]. split; [apply gain_Z|].
  split; [apply spec_gain_Y|apply spec_gain_Z].
Qed.

(** * Further properties of the code *)

(** ** Rules and label nodes *)

Lemma paths_length node : forall path, length (paths node path) = labels node.
Proof.
  induction node as [v t cs IH] using Node_ind'. intros path.
  cbn [paths labels]. rewrite length_app. f_equal; [destruct t; reflexivity|].
  induction IH as [|c cs Hc _ IHcs]; [reflexivity|].
  cbn [flat_map fold_right]. now rewrite length_app, Hc, IHcs.
Qed.

Lemma mapM_length {A B} (f : A -> result B) l ys :
  mapM f l = Ok ys -> length ys = length l.
Proof.
  revert ys. induction l as [|x l IH]; intros ys; cbn [mapM].
  - now intros [= <-].
  - destruct (f x) as [y|e]; cbn [bind]; [|discriminate].
    destruct (mapM f l) as [ys'|e]; cbn [bind]; [|discriminate].
    intros [= <-]. cbn. f_equal. now apply IH.
Qed.

(** X1: [paths] yields one path for every node of type ['label'], whatever
    the tree and the prefix; so when [derive_ruleset] returns, it returns as
    many rules as the tree the object then holds has label nodes. *)
Theorem rules_count (so : SetOrder) (self self' : Dataset) (rules : list Rule) :
  derive_ruleset so self = Some (Ok (rules, self')) ->
  exists t, tree self' = Some t /\ length rules = labels t /\
            forall path, length (paths t path) = labels t.
Proof.
  unfold derive_ruleset. intros H.
  destruct (match tree self with
            | None => build_tree so self
            | Some t => Some (Ok (t, self))
            end) as [[[t st]|e]|] eqn:E; try discriminate.
  cbn [fst snd] in H.
  destruct (mapM rule_of_path (paths t [])) as [rs|e] eqn:Er; [|discriminate].
  injection H as <- <-. exists t. cbn [tree]. repeat split.
  - destruct (tree self) as [t0|] eqn:Et.
    + injection E as <- <-. exact Et.
    + unfold build_tree in E.
      destruct (_id3 so _ self _ _ _) as [[[t1 a1]|e1]|]; try discriminate.
      cbn [fst snd] in E. injection E as <- <-. reflexivity.
  - rewrite (mapM_length _ _ _ Er). apply paths_length.
  - apply paths_length.
Qed.

Lemma rules_count_witness :
  derive_ruleset insertion_order table_one_attr
  = Some (Ok ([([(Name "A", Name "a1")], ("T", "y"));
               ([(Name "A", Name "a2")], ("T", "n"))],
              mkDataset (data table_one_attr) [] "T" (Some tree_one_attr)
                        (Some [([(Name "A", Name "a1")], ("T", "y"));
                               ([(Name "A", Name "a2")], ("T", "n"))]))) /\
  exists t,
    tree (mkDataset (data table_one_attr) [] "T" (Some tree_one_attr)
                    (Some [([(Name "A", Name "a1")], ("T", "y"));
                           ([(Name "A", Name "a2")], ("T", "n"))]))
    = Some t /\
    length [([(Name "A", Name "a1")], ("T", "y"));
            ([(Name "A", Name "a2")], ("T", "n"))] = labels t /\
    forall path, length (paths t path) = labels t.
Proof.
  split; [reflexivity|].
  apply (rules_count insertion_order table_one_attr). reflexivity.
Defined.

(** ** The condition of a rule *)

(** X2: [eval_condition] looks every attribute of the condition up before
    it answers: when the record lacks one of them it raises [KeyError], also
    when another test of the condition already fails; otherwise it answers
    whether the record has the required value for every attribute. *)
Theorem eval_condition_all_tests (tup : Record) (conds : list (string * string)) :
  eval_condition tup (map test_pair conds)
  = if forallb (fun av => has_keyb (fst av) tup) conds
    then Ok (forallb (fun av => has_value (fst av) (snd av) tup) conds)
    else Raise KeyError.
Proof.
  unfold eval_condition.
  assert (H : mapM (fun av : NodeValue * NodeValue =>
                      match fst av with
                      | Name a =>
                          v <- getitem tup a ;;
                          Ok (match snd av with
                              | Name w => String.eqb v w
                              | Label _ _ => false
                              end)
                      | Label _ _ => Raise TypeError
                      end) (map test_pair conds)
              = if forallb (fun av => has_keyb (fst av) tup) conds
                then Ok (map (fun av => has_value (fst av) (snd av) tup) conds)
                else Raise KeyError).
  { induction conds as [|[a v] conds IH]; [reflexivity|].
    cbn [map mapM test_pair fst snd forallb]. unfold has_keyb at 1, has_value at 1.
    cbn [fst snd]. destruct (getitem tup a) as [w|e] eqn:E; cbn [bind andb].
    - rewrite IH. destruct (forallb _ conds); reflexivity.
    - now rewrite (getitem_raise _ _ _ E). }
  rewrite H. destruct (forallb _ conds); cbn [bind]; [|reflexivity].
  f_equal. clear H. induction conds as [|av conds IH]; [reflexivity|].
  cbn [map forallb]. now rewrite IH.
Qed.

(** ** The outcomes of [build_tree] *)

(** X3: [build_tree] always ends.  When it returns, the object holds the
    returned tree, its records and target are as before, and its headers
    are the old ones with some taken out.  When it raises, it raises
    [ValueError] on an object without records and without headers, or
    [KeyError] on an object with a record that lacks the target or a
    header; nothing else. *)
Theorem build_tree_outcomes (so : SetOrder) (self : Dataset) :
  exists r,
    build_tree so self = Some r /\
    match r with
    | Ok (t, self') =>
        tree self' = Some t /\ data self' = data self /\
        target self' = target self /\ ruleset self' = ruleset self /\
        subseq (headers self') (headers self)
    | Raise e =>
        (e = ValueError /\ data self = [] /\ headers self = []) \/
        (e = KeyError /\ ~ keyed (target self :: headers self) (data self))
    end.
Proof.
  unfold build_tree.
  destruct (id3_post_holds so self (target self) (S (length (headers self)))
              (headers self) (data self)) as (r & Hr & Hpost); [lia|].
  rewrite Hr. destruct r as [[t attrs']|e].
  - eexists. split; [reflexivity|]. cbn. destruct Hpost as [Hsub _].
    repeat split. exact Hsub.
  - eexists. split; [reflexivity|]. destruct e; cbn in Hpost; try contradiction.
    + right. split; [reflexivity|]. intros Hk. apply Hpost. now split.
    + left. destruct Hpost. auto.
Qed.

(** ** Labels *)

Lemma max_by_nat_max {A} (l : list (A * nat)) (x : A) :
  max_by (fun a b => Nat.ltb b a) l = Ok x ->
  exists k, In (x, k) l /\ forall y k', In (y, k') l -> k' <= k.
Proof.
  destruct l as [|b0 l]; cbn [max_by]; [discriminate|]. intros [= <-].
  assert (G : forall l (best : A * nat),
            let r := fold_left
                       (fun (best y : A * nat) =>
                          if Nat.ltb (snd best) (snd y) then y else best)
                       l best in
            In r (best :: l) /\ snd best <= snd r /\
            forall y, In y l -> snd y <= snd r).
  { induction l0 as [|y l0 IH]; intros best; cbn [fold_left].
    - repeat split; [now left|lia|intros y []].
    - destruct (Nat.ltb (snd best) (snd y)) eqn:E.
      + apply Nat.ltb_lt in E. destruct (IH y) as (Hin & Hle & Hall).
        repeat split.
        * right. exact Hin.
        * lia.
        * intros z [<-|Hz]; [exact Hle|now apply Hall].
      + apply Nat.ltb_ge in E. destruct (IH best) as (Hin & Hle & Hall).
        repeat split.
        * destruct Hin as [Hin|Hin]; [now left|right; now right].
        * exact Hle.
        * intros z [<-|Hz]; [lia|now apply Hall]. }
  destruct (G l b0) as (Hin & Hle & Hall).
  exists (snd (fold_left
                 (fun (best y : A * nat) =>
                    if Nat.ltb (snd best) (snd y) then y else best) l b0)).
  split.
  - rewrite <- surjective_pairing. exact Hin.
  - intros y k' [E|Hy]; [subst b0; exact Hle|]. exact (Hall _ Hy).
Qed.

Lemma most_common_max so values v :
  most_common so values = Ok v ->
  In v values /\ forall w, count w values <= count v values.
Proof.
  intros H. split; [now apply most_common_In in H|].
  unfold most_common in H. apply max_by_nat_max in H as (k & Hin & Hmax).
  apply in_map_iff in Hin as (v' & [= -> <-] & _).
  intros w. destruct (in_dec string_dec w values) as [Hw|Hw].
  - apply (Hmax w). apply in_map_iff. exists w. split; [reflexivity|].
    exact (proj2 (set_iter_In so values w) Hw).
  - rewrite (count_zero _ _ Hw). lia.
Qed.

Lemma set_iter_single so l v :
  set_iter so l = [v] -> In v l /\ forall w, In w l -> w = v.
Proof.
  intros H. split.
  - apply (set_iter_In so). rewrite H. now left.
  - intros w Hw. apply (set_iter_In so) in Hw. rewrite H in Hw.
    destruct Hw as [<-|[]]. reflexivity.
Qed.

(** X4: called without attributes, [_id3] returns a single label for the
    target, and the value of the label is one of the most frequent target
    values of the records it was given; the list of attributes stays
    empty. *)
Theorem no_attrs_majority_label (so : SetOrder) (self : Dataset)
    (tgt : string) (dataset : list Record) (fuel : nat)
    (t : Node) (attrs' : list string) :
  _id3 so fuel self tgt [] dataset = Some (Ok (t, attrs')) ->
  exists val t_values,
    column tgt dataset = Ok t_values /\
    t = leaf tgt val /\ attrs' = [] /\
    In val t_values /\
    forall w, count w t_values <= count val t_values.
Proof.
  destruct fuel as [|fuel]; [discriminate|]. cbn [_id3].
  destruct (column tgt dataset) as [t_values|e]; [|discriminate].
  assert (Hone : forall val, set_iter so t_values = [val] ->
            In val t_values /\ forall w, count w t_values <= count val t_values).
  { intros val E. destruct (set_iter_single so _ _ E) as [Hin Hall].
    split; [exact Hin|]. intros w.
    rewrite (count_all_same val t_values Hall).
    apply (count_occ_bound string_dec). }
  assert (Hvote : (common <-- Some (most_common so t_values) ;;;
                   Some (Ok (leaf tgt common, @nil string)))
                  = Some (Ok (t, attrs')) ->
            exists val t_values0,
              Ok t_values = Ok t_values0 /\ t = leaf tgt val /\ attrs' = [] /\
              In val t_values0 /\
              forall w, count w t_values0 <= count val t_values0).
  { destruct (most_common so t_values) as [common|e] eqn:E; [|discriminate].
    intros [= <- <-]. exists common, t_values.
    destruct (most_common_max so _ _ E). auto. }
  destruct (set_iter so t_values) as [|v [|v' vs]] eqn:E; try exact Hvote.
  intros [= <- <-]. exists v, t_values. destruct (Hone v eq_refl). auto.
Qed.

Lemma no_attrs_majority_label_witness :
  _id3 insertion_order 1 table_one_attr_built "T" [] (data table_one_attr)
  = Some (Ok (leaf "T" "y", [])) /\
  exists val t_values,
    column "T" (data table_one_attr) = Ok t_values /\
    leaf "T" "y" = leaf "T" val /\ @nil string = [] /\
    In val t_values /\
    forall w, count w t_values <= count val t_values.
Proof.
  split; [reflexivity|].
  apply (no_attrs_majority_label insertion_order table_one_attr_built "T"
           (data table_one_attr) 1 (leaf "T" "y") []).
  reflexivity.
Defined.

Lemma dict_keys_const l v :
  In v l -> (forall w, In w l -> w = v) -> dict_keys l = [v].
Proof.
  induction l as [|x l IH]; intros Hin Hall; [destruct Hin|].
  assert (x = v) by (apply Hall; now left). subst x.
  cbn [dict_keys]. f_equal.
  destruct l as [|y l]; [reflexivity|].
  rewrite IH.
  - cbn [filter]. now rewrite String.eqb_refl.
  - left. apply Hall. right. now left.
  - intros w Hw. apply Hall. now right.
Qed.

(** X5: when all the records given to [_id3] have the same target value,
    it returns the label with that value at once: the attribute list is
    left as it is and no other attribute of the records is looked up, so
    records that lack one raise nothing. *)
Theorem pure_subset_label (so : SetOrder) (self : Dataset) (tgt : string)
    (attrs : list string) (dataset : list Record) (fuel : nat)
    (t_values : list string) (v : string) :
  column tgt dataset = Ok t_values ->
  In v t_values ->
  (forall w, In w t_values -> w = v) ->
  _id3 so (S fuel) self tgt attrs dataset = Some (Ok (leaf tgt v, attrs)).
Proof.
  intros Hc Hin Hall. apply (id3_pure so self tgt fuel attrs dataset t_values v Hc).
  now apply dict_keys_const.
Qed.

Lemma pure_subset_label_witness :
  column "T" [[("T", "y")]; [("A", "a"); ("T", "y")]] = Ok ["y"; "y"] /\
  In "y" ["y"; "y"] /\
  (forall w, In w ["y"; "y"] -> w = "y") /\
  _id3 insertion_order 1 table_one_attr "T" ["A"]
       [[("T", "y")]; [("A", "a"); ("T", "y")]]
  = Some (Ok (leaf "T" "y", ["A"])).
Proof.
  assert (H : forall w, In w ["y"; "y"] -> w = "y").
  { intros w [<-|[<-|[]]]; reflexivity. }
  split; [reflexivity|]. split; [now left|]. split; [exact H|].
  apply (pure_subset_label insertion_order table_one_attr "T" ["A"]
           [[("T", "y")]; [("A", "a"); ("T", "y")]] 0 ["y"; "y"] "y").
  - reflexivity.
  - now left.
  - exact H.
Defined.

(** ** The order of the branches *)

Lemma insert_sorted_sorted x l :
  StronglySorted (fun a b => String.leb a b = true) l ->
  StronglySorted (fun a b => String.leb a b = true) (insert_sorted x l).
Proof.
  induction 1 as [|y l Hs IH Hall]; cbn [insert_sorted].
  - repeat constructor.
  - destruct (String.leb x y) eqn:E.
    + constructor; [constructor; assumption|].
      constructor; [exact E|].
      eapply Forall_impl; [|exact Hall]. intros z Hz. eapply leb_trans; eauto.
    + constructor; [exact IH|].
      apply leb_false in E.
      eapply Permutation_Forall; [apply Permutation_sym, insert_sorted_perm|].
      constructor; assumption.
Qed.

Lemma ltb_iff a b : String.ltb a b = true <-> String.leb a b = true /\ a <> b.
Proof.
  unfold String.ltb, String.leb.
  destruct (String.compare a b) eqn:E.
  - apply String.compare_eq_iff in E. subst. intuition congruence.
  - split; [|reflexivity]. intros _. split; [reflexivity|].
    intros ->. assert (H : String.compare b b = Eq).
    { now apply String_as_OT.cmp_eq. }
    unfold String_as_OT.cmp in H. congruence.
  - intuition congruence.
Qed.

Lemma sorted_ascending l : NoDup l -> ascending (sorted l).
Proof.
  intros Hnd.
  assert (Hs : StronglySorted (fun a b => String.leb a b = true) (sorted l)).
  { clear Hnd. induction l as [|x l IH]; [constructor|].
    cbn [sorted fold_right]. now apply insert_sorted_sorted. }
  assert (Hnd' : NoDup (sorted l)).
  { eapply Permutation_NoDup; [apply Permutation_sym, sorted_perm|exact Hnd]. }
  unfold ascending. induction Hs as [|y l' Hs IH Hall]; [constructor|].
  inversion Hnd' as [|? ? Hy Hnd'']; subst. constructor; [now apply IH|].
  apply Forall_forall. intros z Hz. apply ltb_iff. split.
  - exact (proj1 (Forall_forall _ _) Hall z Hz).
  - intros ->. contradiction.
Qed.

Lemma branches_children so rec tgt attr dataset (P : Node -> Prop) :
  (forall attrs d t a', rec attrs d = Some (Ok (t, a')) -> P t) ->
  forall vals acc attrs cs a',
    branches so rec tgt attr dataset vals acc attrs = Some (Ok (cs, a')) ->
    exists subs,
      cs = acc ++ map branch (combine vals subs) /\
      length subs = length vals /\ Forall P subs.
Proof.
  intros Hrec. induction vals as [|val vals IH]; intros acc attrs cs a';
    cbn [branches].
  - intros [= <- <-]. exists []. rewrite app_nil_r. repeat split. constructor.
  - destruct (select attr val dataset) as [[|t0 sub0]|e]; [| |discriminate].
    + cbn [column mapM bind].
      destruct (most_common so []) as [common|e] eqn:E; [|discriminate].
      apply most_common_In in E. destruct E.
    + destruct (rec (drop_attr attr attrs) (t0 :: sub0)) as [[[sub a1]|e]|] eqn:E;
        try discriminate.
      cbn [fst snd]. intros H. apply IH in H as (subs & -> & Hlen & Hall).
      exists (sub :: subs). rewrite <- app_assoc. cbn [combine map app length].
      repeat split; [now rewrite Hlen|].
      constructor; [exact (Hrec _ _ _ _ E)|exact Hall].
Qed.

(** X6: every tree [_id3] returns is a label without children or a test
    whose children are value nodes with exactly one child each, listed in
    strictly ascending order of their values, above trees of the same
    kind. *)
Theorem id3_tree_ordered (so : SetOrder) (self : Dataset) (tgt : string)
    (fuel : nat) (attrs : list string) (dataset : list Record)
    (t : Node) (attrs' : list string) :
  _id3 so fuel self tgt attrs dataset = Some (Ok (t, attrs')) ->
  ordered_tree t.
Proof.
  revert attrs dataset t attrs'.
  induction fuel as [|fuel IH]; intros attrs dataset t attrs'; [discriminate|].
  cbn [_id3].
  destruct (column tgt dataset) as [t_values|e]; [|discriminate].
  assert (Hrest :
    match attrs with
    | [] => common <-- Some (most_common so t_values) ;;;
            Some (Ok (leaf tgt common, attrs))
    | _ :: _ =>
        attr <-- Some (info_gain <-
                         mapM (fun a => g <- information_gain self tgt a ;;
                                        Ok (a, g)) attrs ;;
                       max_by Rgtb info_gain) ;;;
        a_col <-- Some (column attr dataset) ;;;
        r <-- branches so (_id3 so fuel self tgt) tgt attr
                dataset (sorted (set_iter so a_col)) [] attrs ;;;
        Some (Ok (mkNode (Name attr) attr_t (fst r), snd r))
    end = Some (Ok (t, attrs')) -> ordered_tree t).
  { destruct attrs as [|a0 attrs0].
    - destruct (most_common so t_values); [|discriminate].
      intros [= <- <-]. constructor.
    - destruct (info_gain <- mapM _ (a0 :: attrs0) ;; max_by Rgtb info_gain)
        as [attr|e]; [|discriminate].
      destruct (column attr dataset) as [a_col|e]; [|discriminate].
      destruct (branches so (_id3 so fuel self tgt) tgt attr dataset
                  (sorted (set_iter so a_col)) [] (a0 :: attrs0))
        as [[[cs a1]|e]|] eqn:E; try discriminate.
      cbn [fst snd]. intros [= <- <-].
      apply (branches_children so _ tgt attr dataset ordered_tree IH) in E
        as (subs & -> & Hlen & Hall).
      cbn [app]. constructor; [exact Hlen| |exact Hall].
      apply sorted_ascending, set_iter_NoDup. }
  destruct (set_iter so t_values) as [|v [|v' vs]]; try exact Hrest.
  intros [= <- <-]. constructor.
Qed.

Lemma id3_tree_ordered_witness :
  _id3 insertion_order 2 table_one_attr "T" ["A"] (data table_one_attr)
  = Some (Ok (tree_one_attr, [])) /\
  ordered_tree tree_one_attr.
Proof.
  split; [reflexivity|].
  apply (id3_tree_ordered insertion_order table_one_attr "T" 2 ["A"]
           (data table_one_attr) tree_one_attr []).
  reflexivity.
Defined.

(** ** Bounds and special cases of the information gain *)

Lemma entropy_forms self r c0 s dataset sv tv :
  dataset <> [] ->
  column (String c0 s) dataset = Ok sv ->
  column r dataset = Ok tv ->
  exists ps,
    map fst ps = sv /\ map snd ps = tv /\
    (forall val, column r (filter (has_value (String c0 s) val) dataset)
                 = Ok (part val ps)) /\
    entropy self r None (Some dataset) = Ok (entropy_values tv) /\
    entropy self r (Some (String c0 s)) (Some dataset)
    = Ok (0 + Rsum (fun val => freq val sv * entropy_values (part val ps))
                   (dict_keys sv))%R.
Proof.
  intros Hne Hs Hr.
  destruct (columns_pairs _ _ _ _ _ Hs Hr) as (ps & Hfst & Hsnd & Hpart).
  exists ps. repeat split; auto.
  - unfold entropy, entropy_target, or_data.
    destruct dataset; [contradiction|]. now rewrite Hr.
  - now apply entropy_split.
Qed.

Lemma entropy_values_nonneg values : values <> [] -> (0 <= entropy_values values)%R.
Proof.
  intros Hv. rewrite entropy_values_sum.
  apply (entropy_nonneg (dict_keys values) (fun v => freq v values)).
  - now apply freq_pos.
  - now apply freq_sum.
Qed.

Lemma entropy_values_pure values :
  values <> [] -> (forall v w, In v values -> In w values -> v = w) ->
  entropy_values values = 0%R.
Proof.
  intros Hv Hall. rewrite entropy_values_sum.
  apply (entropy_zero_iff (dict_keys values) (fun v => freq v values)).
  - now apply freq_pos.
  - now apply freq_sum.
  - now apply freq_one_iff.
Qed.

Lemma part_nonempty val ps : In val (map fst ps) -> part val ps <> [].
Proof.
  intros Hin E. apply count_pos in Hin. rewrite <- part_length, E in Hin.
  cbn in Hin. lia.
Qed.

Lemma freq_nonneg v values : (0 <= freq v values)%R.
Proof.
  unfold freq. destruct values as [|x l].
  - cbn. unfold Rdiv. rewrite Rmult_0_l. lra.
  - assert (0 < INR (length (x :: l)))%R by (apply lt_0_INR; cbn; lia).
    pose proof (pos_INR (count v (x :: l))).
    apply Rmult_le_pos; [assumption|]. apply Rlt_le, Rinv_0_lt_compat. assumption.
Qed.

Lemma split_entropy_nonneg sv ps :
  map fst ps = sv ->
  (0 <= 0 + Rsum (fun val => freq val sv * entropy_values (part val ps))
                 (dict_keys sv))%R.
Proof.
  intros Hfst.
  assert (0 <= Rsum (fun val => freq val sv * entropy_values (part val ps))
                    (dict_keys sv))%R; [|lra].
  apply Rsum_nonneg. intros val Hval. apply Rmult_le_pos.
  - apply freq_nonneg.
  - apply entropy_values_nonneg, part_nonempty. rewrite Hfst.
    exact (proj1 (dict_keys_In _ _) Hval).
Qed.

(** X7: for a non-empty [dataset] whose records all have the attributes
    [r] and [s], the entropy of [r] split by [s] that [entropy] returns is
    not negative, so the difference [information_gain] takes is at most the
    entropy of [r].  Python floats are read as real numbers. *)
Theorem gain_at_most_entropy (self : Dataset) (r s : string)
    (dataset : list Record) :
  dataset <> [] ->
  keyed [r; s] dataset ->
  exists e e_s,
    entropy self r None (Some dataset) = Ok e /\
    entropy self r (Some s) (Some dataset) = Ok e_s /\
    (0 <= e_s)%R /\ (e - e_s <= e)%R.
Proof.
  intros Hne Hk.
  destruct (column_ok r dataset) as (tv & Hr).
  { eapply keyed_has_key; eauto. now left. }
  destruct (column_ok s dataset) as (sv & Hs).
  { eapply keyed_has_key; eauto. right. now left. }
  destruct s as [|c0 s].
  - assert (He : entropy self r None (Some dataset) = Ok (entropy_values tv)).
    { unfold entropy, entropy_target, or_data.
      destruct dataset; [contradiction|]. now rewrite Hr. }
    assert (0 <= entropy_values tv)%R.
    { apply entropy_values_nonneg. intros ->. apply column_length in Hr.
      destruct dataset; [contradiction|discriminate]. }
    exists (entropy_values tv), (entropy_values tv).
    repeat split; auto. lra.
  - destruct (entropy_forms self r c0 s dataset sv tv Hne Hs Hr)
      as (ps & Hfst & _ & _ & He & Hes).
    pose proof (split_entropy_nonneg sv ps Hfst).
    exists (entropy_values tv). eexists. split; [exact He|].
    split; [exact Hes|]. split; [assumption|lra].
Qed.

Lemma gain_at_most_entropy_witness :
  data table_one_attr <> [] /\
  keyed ["T"; "A"] (data table_one_attr) /\
  exists e e_s,
    entropy table_one_attr "T" None (Some (data table_one_attr)) = Ok e /\
    entropy table_one_attr "T" (Some "A") (Some (data table_one_attr)) = Ok e_s /\
    (0 <= e_s)%R /\ (e - e_s <= e)%R.
Proof.
  assert (Hk : keyed ["T"; "A"] (data table_one_attr)).
  { repeat constructor; intros k [<-|[<-|[]]]; eexists; reflexivity. }
  split; [discriminate|]. split; [exact Hk|].
  apply (gain_at_most_entropy table_one_attr "T" "A" (data table_one_attr)).
  - discriminate.
  - exact Hk.
Defined.

Lemma part_all v ps : (forall p, In p ps -> fst p = v) -> part v ps = map snd ps.
Proof.
  intros H. unfold part. f_equal.
  induction ps as [|p ps IH]; [reflexivity|]. cbn [filter].
  rewrite (H p (or_introl eq_refl)), String.eqb_refl. f_equal.
  apply IH. intros q Hq. apply H. now right.
Qed.

(** X8: when all the records of a non-empty [dataset] have the same value
    of the attribute [s], splitting by [s] changes nothing: the entropy of
    [r] split by [s] is the entropy of [r], and the gain is 0.  Python
    floats are read as real numbers. *)
Theorem constant_split_no_gain (self : Dataset) (r s : string)
    (dataset : list Record) (sv : list string) (v : string) :
  dataset <> [] ->
  keyed [r] dataset ->
  column s dataset = Ok sv ->
  (forall w, In w sv -> w = v) ->
  exists e e_s,
    entropy self r None (Some dataset) = Ok e /\
    entropy self r (Some s) (Some dataset) = Ok e_s /\
    e_s = e /\ (e - e_s = 0)%R.
Proof.
  intros Hne Hk Hs Hall.
  destruct (column_ok r dataset) as (tv & Hr).
  { eapply keyed_has_key; eauto. now left. }
  destruct s as [|c0 s].
  - assert (He : entropy self r None (Some dataset) = Ok (entropy_values tv)).
    { unfold entropy, entropy_target, or_data.
      destruct dataset; [contradiction|]. now rewrite Hr. }
    exists (entropy_values tv), (entropy_values tv).
    repeat split; auto. lra.
  - destruct (entropy_forms self r c0 s dataset sv tv Hne Hs Hr)
      as (ps & Hfst & Hsnd & _ & He & Hes).
    assert (Hsv : sv <> []).
    { intros ->. apply column_length in Hs.
      destruct dataset; [contradiction|discriminate]. }
    assert (Hv : In v sv).
    { destruct sv as [|x l]; [contradiction|].
      rewrite <- (Hall x (or_introl eq_refl)). now left. }
    assert (E : (0 + Rsum (fun val => freq val sv * entropy_values (part val ps))
                          (dict_keys sv) = entropy_values tv)%R).
    { rewrite (dict_keys_const sv v Hv Hall). cbn [Rsum fold_right].
      rewrite part_all, Hsnd.
      - unfold freq. rewrite (count_all_same v sv Hall).
        pose proof (length_pos sv Hsv). field. lra.
      - intros p Hp. apply Hall. rewrite <- Hfst. now apply in_map. }
    exists (entropy_values tv). eexists. split; [exact He|].
    split; [exact Hes|]. split; [exact E|rewrite E; lra].
Qed.

Lemma constant_split_no_gain_witness :
  subset_2 <> [] /\
  keyed ["T"] subset_2 /\
  column "Y" subset_2 = Ok ["y0"; "y0"; "y0"; "y0"] /\
  (forall w, In w ["y0"; "y0"; "y0"; "y0"] -> w = "y0") /\
  exists e e_s,
    entropy table_gain "T" None (Some subset_2) = Ok e /\
    entropy table_gain "T" (Some "Y") (Some subset_2) = Ok e_s /\
    e_s = e /\ (e - e_s = 0)%R.
Proof.
  assert (Hk : keyed ["T"] subset_2).
  { repeat constructor; intros k [<-|[]]; eexists; reflexivity. }
  assert (Hall : forall w, In w ["y0"; "y0"; "y0"; "y0"] -> w = "y0").
  { intros w [<-|[<-|[<-|[<-|[]]]]]; reflexivity. }
  split; [discriminate|]. split; [exact Hk|]. split; [reflexivity|].
  split; [exact Hall|].
  apply (constant_split_no_gain table_gain "T" "Y" subset_2
           ["y0"; "y0"; "y0"; "y0"] "y0").
  - discriminate.
  - exact Hk.
  - reflexivity.
  - exact Hall.
Defined.

(** X9: when, among the records of a non-empty [dataset], the value of the
    attribute [s] decides the value of [r], the entropy of [r] split by [s]
    that [entropy] returns is 0: the gain is the whole entropy of [r].
    Python floats are read as real numbers. *)
Theorem deciding_split_full_gain (self : Dataset) (r : string) (c0 : ascii)
    (s : string) (dataset : list Record) :
  dataset <> [] ->
  keyed [r; String c0 s] dataset ->
  (forall t1 t2 a v w,
     In t1 dataset -> In t2 dataset ->
     getitem t1 (String c0 s) = Ok a -> getitem t2 (String c0 s) = Ok a ->
     getitem t1 r = Ok v -> getitem t2 r = Ok w -> v = w) ->
  exists e_s,
    entropy self r (Some (String c0 s)) (Some dataset) = Ok e_s /\ e_s = 0%R.
Proof.
  intros Hne Hk Hdec.
  destruct (column_ok r dataset) as (tv & Hr).
  { eapply keyed_has_key; eauto. now left. }
  destruct (column_ok (String c0 s) dataset) as (sv & Hs).
  { eapply keyed_has_key; eauto. right. now left. }
  destruct (entropy_forms self r c0 s dataset sv tv Hne Hs Hr)
    as (ps & Hfst & Hsnd & Hpart & _ & Hes).
  rewrite Hes. eexists. split; [reflexivity|].
  rewrite (Rsum_ext _ (fun _ => 0%R)); [rewrite Rsum_const; lra|].
  intros val Hval. apply (proj1 (dict_keys_In _ _)) in Hval.
  rewrite entropy_values_pure; [lra| |].
  - apply part_nonempty. now rewrite Hfst.
  - intros v w Hv Hw.
    destruct (column_In_inv _ _ _ _ (Hpart val) Hv) as (t1 & Ht1 & Hv1).
    destruct (column_In_inv _ _ _ _ (Hpart val) Hw) as (t2 & Ht2 & Hw2).
    apply filter_In in Ht1 as [Ht1 Ha1]. apply filter_In in Ht2 as [Ht2 Ha2].
    unfold has_value in Ha1, Ha2.
    destruct (getitem t1 (String c0 s)) as [a1|] eqn:E1; [|discriminate].
    destruct (getitem t2 (String c0 s)) as [a2|] eqn:E2; [|discriminate].
    apply String.eqb_eq in Ha1, Ha2. subst a1 a2.
    exact (Hdec t1 t2 val v w Ht1 Ht2 E1 E2 Hv1 Hw2).
Qed.

Lemma deciding_split_full_gain_witness :
  data table_one_attr <> [] /\
  keyed ["T"; "A"] (data table_one_attr) /\
  (forall t1 t2 a v w,
     In t1 (data table_one_attr) -> In t2 (data table_one_attr) ->
     getitem t1 "A" = Ok a -> getitem t2 "A" = Ok a ->
     getitem t1 "T" = Ok v -> getitem t2 "T" = Ok w -> v = w) /\
  exists e_s,
    entropy table_one_attr "T" (Some "A") (Some (data table_one_attr)) = Ok e_s /\
    e_s = 0%R.
Proof.
  assert (Hk : keyed ["T"; "A"] (data table_one_attr)).
  { repeat constructor; intros k [<-|[<-|[]]]; eexists; reflexivity. }
  assert (Hdec : forall t1 t2 a v w,
            In t1 (data table_one_attr) -> In t2 (data table_one_attr) ->
            getitem t1 "A" = Ok a -> getitem t2 "A" = Ok a ->
            getitem t1 "T" = Ok v -> getitem t2 "T" = Ok w -> v = w).
  { intros t1 t2 a v w H1 H2. cbn in H1, H2.
    destruct H1 as [<-|[<-|[<-|[]]]]; destruct H2 as [<-|[<-|[<-|[]]]];
      cbn; congruence. }
  split; [discriminate|]. split; [exact Hk|]. split; [exact Hdec|].
  apply (deciding_split_full_gain table_one_attr "T" "A"%char ""
           (data table_one_attr)).
  - discriminate.
  - exact Hk.
  - exact Hdec.
Defined.

(** X10: a header that is the empty string is never split on:
    [information_gain] takes it for no splitting attribute and, when it
    returns, returns 0, whatever the records hold under that header.
    Python floats are read as real numbers. *)
Theorem empty_name_no_gain (self : Dataset) (r : string) (g : R) :
  information_gain self r "" = Ok g -> g = 0%R.
Proof.
  unfold information_gain. cbn [entropy].
  destruct (entropy_target self r None) as [e|e]; cbn [bind]; [|discriminate].
  intros [= <-]. lra.
Qed.

Lemma empty_name_no_gain_witness :
  information_gain
    (new_dataset [""] "T" [[("", "a"); ("T", "y")]; [("", "b"); ("T", "n")]])
    "T" ""
  = Ok (entropy_values ["y"; "n"] - entropy_values ["y"; "n"])%R /\
  (entropy_values ["y"; "n"] - entropy_values ["y"; "n"] = 0)%R.
Proof.
  split; [reflexivity|].
  apply (empty_name_no_gain
           (new_dataset [""] "T" [[("", "a"); ("T", "y")]; [("", "b"); ("T", "n")]])
           "T").
  reflexivity.
Defined.

(** ** The accuracy *)

Lemma matching_incl pairs ds :
  forall sub, matching pairs ds = Ok sub -> incl sub ds.
Proof.
  induction ds as [|t ds IH]; intros sub; cbn [matching].
  - intros [= <-]. intros x [].
  - destruct (eval_condition t pairs) as [b|e]; cbn [bind]; [|discriminate].
    destruct (matching pairs ds) as [sub'|e]; cbn [bind]; [|discriminate].
    intros [= <-]. specialize (IH _ eq_refl).
    destruct b; intros x Hx.
    + destruct Hx as [<-|Hx]; [now left|right; now apply IH].
    + right. now apply IH.
Qed.

Lemma correct_preds_le rule tgt ds :
  fst (snd rule) = tgt -> Forall (has_key tgt) ds ->
  exists c, correct_preds rule tgt ds = Ok c /\ length c <= length ds.
Proof.
  intros Hrule. induction 1 as [|t ds [v Hv] _ (c & Hc & Hle)].
  - exists []. split; [reflexivity|]. cbn. lia.
  - cbn [correct_preds]. rewrite Hv. cbn [bind]. unfold conclusion.
    rewrite Hrule, String.eqb_refl. cbn [bind]. rewrite Hc. cbn [bind].
    eexists. split; [reflexivity|].
    destruct (String.eqb v (snd (snd rule))); cbn [length]; lia.
Qed.

Lemma total_correct_le self (rules : list Rule) :
  Forall (has_key (target self)) (data self) ->
  forall subsets acc,
    mapM (fun rule => matching (fst rule) (data self)) rules = Ok subsets ->
    Forall (fun rule => fst (snd rule) = target self) rules ->
    exists total,
      foldM (fun total rule =>
               data_subset <- matching (fst rule) (data self) ;;
               correct <- correct_preds rule (target self) data_subset ;;
               Ok (total + length correct)) rules acc = Ok total /\
      total <= acc + length (concat subsets).
Proof.
  intros Hkeys. induction rules as [|rule rules IH]; intros subsets acc;
    cbn [mapM foldM].
  - intros [= <-] _. exists acc. split; [reflexivity|]. cbn. lia.
  - destruct (matching (fst rule) (data self)) as [sub|e] eqn:Em; cbn [bind];
      [|discriminate].
    match goal with
    | |- context [mapM ?f rules] =>
        destruct (mapM f rules) as [subs|e] eqn:Es; cbn [bind]; [|discriminate]
    end.
    intros [= <-] Hall. inversion Hall as [|? ? Hr Hall']; subst.
    destruct (correct_preds_le rule (target self) sub Hr) as (c & Hc & Hle).
    { apply Forall_forall. intros t Ht.
      apply (proj1 (Forall_forall _ _) Hkeys). exact (matching_incl _ _ _ Em t Ht). }
    rewrite Hc. cbn [bind].
    destruct (IH subs (acc + length c) eq_refl Hall') as (total & Ht & Hle').
    exists total. split; [exact Ht|]. cbn [concat]. rewrite length_app. lia.
Qed.

(** X11: for a fresh object whose records all have a value for the target
    and for every header, and that has a record, [accuracy] returns a
    number between 0 and 1.  Python floats are read as real numbers. *)
Theorem accuracy_between_0_and_1 (so : SetOrder) (self : Dataset) :
  tree self = None -> ruleset self = None ->
  keyed (target self :: headers self) (data self) ->
  data self <> [] ->
  exists a self',
    accuracy so self = Some (Ok (a, self')) /\ (0 <= a <= 1)%R.
Proof.
  intros Htree Hrs Hkeys Hne.
  destruct (id3_valid_ok so self (target self) (headers self) (data self))
    as (t & attrs' & Hid3 & _ & Hshape); [split; exact Hkeys|exact Hne|].
  destruct (rules_of_paths (target self) (paths t []) (shaped_last _ _ _ _ Hshape))
    as (rules & Hrules & Hfst & Hconcl).
  destruct (matching_partition rules (data self)) as (subsets & Hsubs & Hlen).
  { intros tup Hin.
    destruct (shaped_matches _ _ _ _ Hshape tup) as (bs & Hbs & Hone).
    - intros a Ha. apply (proj1 (Forall_forall _ _) Hkeys tup Hin). now right.
    - exists bs. split; [|now apply Hone].
      rewrite <- (mapM_map (eval_condition tup) fst rules), Hfst, mapM_map.
      exact Hbs. }
  assert (Hk : Forall (has_key (target self)) (data self)).
  { eapply keyed_has_key; eauto. now left. }
  destruct (total_correct_le self rules Hk subsets 0 Hsubs Hconcl)
    as (total & Htot & Hle).
  unfold accuracy, derive_ruleset, build_tree.
  rewrite Hrs, Htree, Hid3. cbn [fst snd]. rewrite Hrules. cbn [fst snd].
  unfold total_correct. cbn [data target]. rewrite Htot.
  destruct (data self) as [|t0 rest] eqn:Ed; [contradiction|].
  cbn [length]. eexists. eexists. split; [reflexivity|].
  assert (Hn : (0 < INR (S (length rest)))%R) by (apply lt_0_INR; lia).
  assert (Ht : (INR total <= INR (S (length rest)))%R).
  { apply le_INR. cbn [length] in Hlen. lia. }
  pose proof (pos_INR total). split.
  - apply Rmult_le_pos; [assumption|]. apply Rlt_le, Rinv_0_lt_compat. exact Hn.
  - apply (Rmult_le_reg_r (INR (S (length rest)))); [exact Hn|].
    unfold Rdiv. rewrite Rmult_assoc, Rinv_l by lra. lra.
Qed.

Lemma accuracy_between_0_and_1_witness :
  tree table_one_attr = None /\ ruleset table_one_attr = None /\
  keyed (target table_one_attr :: headers table_one_attr) (data table_one_attr) /\
  data table_one_attr <> [] /\
  exists a self',
    accuracy insertion_order table_one_attr = Some (Ok (a, self')) /\
    (0 <= a <= 1)%R.
Proof.
  assert (Hk : keyed (target table_one_attr :: headers table_one_attr)
                     (data table_one_attr)).
  { repeat constructor; intros k [<-|[<-|[]]]; eexists; reflexivity. }
  split; [reflexivity|]. split; [reflexivity|]. split; [exact Hk|].
  split; [discriminate|].
  apply (accuracy_between_0_and_1 insertion_order table_one_attr).
  - reflexivity.
  - reflexivity.
  - exact Hk.
  - discriminate.
Defined.

(** X12: [accuracy] keeps what it computed: when a call returns, a second
    call on the object it leaves returns the same number and leaves the
    object as it is; the tree and the rules are not built again (unlike a
    second [build_tree]). *)
Theorem accuracy_twice_same (so : SetOrder) (self self' : Dataset) (a : R) :
  accuracy so self = Some (Ok (a, self')) ->
  accuracy so self' = Some (Ok (a, self')).
Proof.
  unfold accuracy. intros H.
  destruct (ruleset self) as [rs|] eqn:Ers.
  - cbn [fst snd] in H.
    destruct (total_correct self rs) as [total|e] eqn:Et; [|discriminate].
    destruct (length (data self)) eqn:El; [discriminate|].
    injection H as <- <-. rewrite Ers. cbn [fst snd]. now rewrite Et, El.
  - destruct (derive_ruleset so self) as [[[rules st]|e]|] eqn:Ed;
      try discriminate.
    cbn [fst snd] in H.
    destruct (total_correct st rules) as [total|e] eqn:Et; [|discriminate].
    destruct (length (data st)) eqn:El; [discriminate|].
    injection H as <- <-.
    assert (Hrs : ruleset st = Some rules).
    { unfold derive_ruleset in Ed.
      destruct (match tree self with
                | None => build_tree so self
                | Some t => Some (Ok (t, self))
                end) as [[[t s1]|e]|]; try discriminate.
      cbn [fst snd] in Ed.
      destruct (mapM rule_of_path (paths t [])); [|discriminate].
      injection Ed as <- <-. reflexivity. }
    rewrite Hrs. cbn [fst snd]. now rewrite Et, El.
Qed.

Lemma accuracy_twice_same_witness :
  accuracy insertion_order table_one_attr
  = Some (Ok ((INR 3 / INR 3)%R,
              mkDataset (data table_one_attr) [] "T" (Some tree_one_attr)
                        (Some [([(Name "A", Name "a1")], ("T", "y"));
                               ([(Name "A", Name "a2")], ("T", "n"))]))) /\
  accuracy insertion_order
    (mkDataset (data table_one_attr) [] "T" (Some tree_one_attr)
               (Some [([(Name "A", Name "a1")], ("T", "y"));
                      ([(Name "A", Name "a2")], ("T", "n"))]))
  = Some (Ok ((INR 3 / INR 3)%R,
              mkDataset (data table_one_attr) [] "T" (Some tree_one_attr)
                        (Some [([(Name "A", Name "a1")], ("T", "y"));
                               ([(Name "A", Name "a2")], ("T", "n"))]))).
Proof.
  split; [reflexivity|].
  apply (accuracy_twice_same insertion_order table_one_attr). reflexivity.
Defined.

(** ** Loading *)

Lemma dict_set_get k v d k' :
  getitem (dict_set k v d) k'
  = if String.eqb k' k then Ok v else getitem d k'.
Proof.
  induction d as [|[k0 v0] d IH]; cbn [dict_set getitem].
  - reflexivity.
  - destruct (String.eqb k k0) eqn:E; cbn [getitem].
    + apply String.eqb_eq in E. subst k0.
      destruct (String.eqb k' k); reflexivity.
    + destruct (String.eqb k' k0) eqn:E0.
      * apply String.eqb_eq in E0. subst k0.
        rewrite String.eqb_sym, E. reflexivity.
      * exact IH.
Qed.

Lemma dict_fold_get (kvs : list (string * string)) :
  forall d k,
    ~ In k (map fst kvs) ->
    getitem (fold_left (fun d kv => dict_set (fst kv) (snd kv) d) kvs d) k
    = getitem d k.
Proof.
  induction kvs as [|[k0 v0] kvs IH]; intros d k Hk; [reflexivity|].
  cbn [fold_left fst snd]. rewrite IH.
  - rewrite dict_set_get. destruct (String.eqb k k0) eqn:E; [|reflexivity].
    apply String.eqb_eq in E. subst. exfalso. apply Hk. now left.
  - intros H. apply Hk. now right.
Qed.

Lemma dict_fold_has_key (kvs : list (string * string)) :
  forall d k,
    In k (map fst kvs) \/ has_key k d ->
    has_key k (fold_left (fun d kv => dict_set (fst kv) (snd kv) d) kvs d).
Proof.
  induction kvs as [|[k0 v0] kvs IH]; intros d k H; cbn [fold_left fst snd].
  - destruct H as [[]|H]. exact H.
  - apply IH. destruct H as [[<-|H]|H]; [right|now left|right].
    + exists v0. rewrite dict_set_get. now rewrite String.eqb_refl.
    + unfold has_key. rewrite dict_set_get.
      destruct (String.eqb k k0); [eauto|exact H].
Qed.

Lemma combine_fst_In (keys vals : list string) k :
  length keys <= length vals -> In k keys -> In k (map fst (combine keys vals)).
Proof.
  revert vals. induction keys as [|x keys IH]; intros vals Hlen Hin;
    [destruct Hin|].
  destruct vals as [|v vals]; [cbn in Hlen; lia|].
  cbn [combine map fst]. destruct Hin as [<-|Hin]; [now left|right].
  apply IH; [cbn in Hlen; lia|exact Hin].
Qed.

(** A key that stands once among the keys gets the value that stands at
    its place, and none when the values end before. *)
Lemma dict_zip_get (keys : list string) :
  forall vals i k,
    NoDup keys -> nth_error keys i = Some k ->
    getitem (dict_zip keys vals) k
    = match nth_error vals i with
      | Some v => Ok v
      | None => Raise KeyError
      end.
Proof.
  unfold dict_zip.
  assert (G : forall keys vals d i k,
            NoDup keys -> nth_error keys i = Some k ->
            getitem (fold_left (fun d kv => dict_set (fst kv) (snd kv) d)
                               (combine keys vals) d) k
            = match nth_error vals i with
              | Some v => Ok v
              | None => getitem d k
              end).
  { induction keys0 as [|x keys0 IH]; intros vals d i k Hnd Hi.
    - destruct i; discriminate.
    - inversion Hnd as [|? ? Hx Hnd']; subst.
      destruct vals as [|v vals].
      + cbn [combine fold_left]. destruct i; reflexivity.
      + cbn [combine fold_left fst snd]. destruct i as [|i].
        * injection Hi as <-. cbn [nth_error]. rewrite dict_fold_get.
          -- rewrite dict_set_get, String.eqb_refl. reflexivity.
          -- intros H. apply Hx. apply in_map_iff in H as ([a b] & <- & Hab).
             now apply in_combine_l in Hab.
        * cbn [nth_error] in Hi |- *. rewrite (IH vals _ i k Hnd' Hi).
          destruct (nth_error vals i); [reflexivity|].
          rewrite dict_set_get. destruct (String.eqb k x) eqn:E; [|reflexivity].
          apply String.eqb_eq in E. subst x. exfalso. apply Hx.
          eapply nth_error_In; eauto. }
  intros vals i k Hnd Hi. now rewrite (G keys vals [] i k Hnd Hi).
Qed.

Lemma split_tab_nonempty s : split_tab s <> [].
Proof.
  induction s as [|c s IH]; cbn [split_tab]; [discriminate|].
  destruct (Ascii.eqb c (ascii_of_nat 9)); [discriminate|].
  destruct (split_tab s); discriminate.
Qed.

Lemma Dataset_init_formatted first rest :
  Dataset_init (first :: rest) true
  = Constructed
      (mkDataset
         (map (fun tup => dict_zip (fields first) (fields tup)) rest)
         (removelast (fields first)) (last (fields first) EmptyString)
         None None).
Proof.
  unfold Dataset_init, populate_data, fields.
  rewrite <- app_removelast_last by apply split_tab_nonempty. reflexivity.
Qed.

Lemma loaded_keyed first rest :
  (forall line, In line rest -> length (fields first) <= length (fields line)) ->
  keyed (last (fields first) EmptyString :: removelast (fields first))
        (map (fun tup => dict_zip (fields first) (fields tup)) rest).
Proof.
  intros Hlen. apply Forall_forall. intros tup Hin k Hk.
  apply in_map_iff in Hin as (line & <- & Hline).
  apply dict_fold_has_key. left. apply combine_fst_In; [now apply Hlen|].
  rewrite (app_removelast_last EmptyString (l := fields first))
    by apply split_tab_nonempty.
  apply in_or_app. destruct Hk as [<-|Hk]; [right; now left|now left].
Qed.

(** X13: the loader puts the fields of a line under the column names of the
    first line, place by place: when the column names are distinct, the
    record of a line has under the [i]-th name the [i]-th field of the
    line, and no such key when the line has fewer fields. *)
Theorem loaded_record_fields (first : string) (rest : list string)
    (j i : nat) (line k : string) :
  NoDup (fields first) ->
  nth_error rest j = Some line ->
  nth_error (fields first) i = Some k ->
  exists self tup,
    Dataset_init (first :: rest) true = Constructed self /\
    nth_error (data self) j = Some tup /\
    getitem tup k = match nth_error (fields line) i with
                    | Some v => Ok v
                    | None => Raise KeyError
                    end.
Proof.
  intros Hnd Hj Hi. rewrite Dataset_init_formatted.
  eexists. exists (dict_zip (fields first) (fields line)).
  split; [reflexivity|]. cbn [data]. split.
  - now rewrite nth_error_map, Hj.
  - now apply dict_zip_get.
Qed.

Lemma loaded_record_fields_witness :
  NoDup (fields (tsv_line ["A"; "T"])) /\
  nth_error (tl lines_short) 1 = Some (tsv_line ["a2"]) /\
  nth_error (fields (tsv_line ["A"; "T"])) 1 = Some "T" /\
  exists self tup,
    Dataset_init lines_short true = Constructed self /\
    nth_error (data self) 1 = Some tup /\
    getitem tup "T" = match nth_error (fields (tsv_line ["a2"])) 1 with
                      | Some v => Ok v
                      | None => Raise KeyError
                      end.
Proof.
  assert (Hnd : NoDup (fields (tsv_line ["A"; "T"]))).
  { repeat constructor; cbn; intuition discriminate. }
  split; [exact Hnd|]. split; [reflexivity|]. split; [reflexivity|].
  apply (loaded_record_fields (tsv_line ["A"; "T"]) (tl lines_short)
                              1 1 (tsv_line ["a2"]) "T");
    [exact Hnd|reflexivity|reflexivity].
Defined.

(** X14: given a first line and lines that each have at least as many
    fields as the first, the constructor returns an object without tree
    and rules, with one record for every further line, whose headers
    followed by the target are the fields of the first line, and whose
    records all have a value for the target and for every header. *)
Theorem loaded_table_keyed (first : string) (rest : list string) :
  (forall line, In line rest -> length (fields first) <= length (fields line)) ->
  exists self,
    Dataset_init (first :: rest) true = Constructed self /\
    headers self ++ [target self] = fields first /\
    length (data self) = length rest /\
    tree self = None /\ ruleset self = None /\
    keyed (target self :: headers self) (data self).
Proof.
  intros Hlen. rewrite Dataset_init_formatted. eexists.
  split; [reflexivity|]. cbn [data headers target tree ruleset].
  split; [|split; [|split; [|split]]].
  - symmetry. apply app_removelast_last. apply split_tab_nonempty.
  - apply length_map.
  - reflexivity.
  - reflexivity.
  - now apply loaded_keyed.
Qed.

Lemma loaded_table_keyed_witness :
  (forall line, In line (tl lines_one_attr) ->
     length (fields (tsv_line ["A"; "T"])) <= length (fields line)) /\
  exists self,
    Dataset_init lines_one_attr true = Constructed self /\
    headers self ++ [target self] = fields (tsv_line ["A"; "T"]) /\
    length (data self) = 2 /\
    tree self = None /\ ruleset self = None /\
    keyed (target self :: headers self) (data self).
Proof.
  assert (H : forall line, In line (tl lines_one_attr) ->
              length (fields (tsv_line ["A"; "T"])) <= length (fields line)).
  { intros line [<-|[<-|[]]]; vm_compute; lia. }
  split; [exact H|].
  apply (loaded_table_keyed (tsv_line ["A"; "T"]) (tl lines_one_attr) H).
Defined.

Lemma combine_short_keys (keys : list string) :
  forall (vals : list string) k,
    length vals < length keys ->
    In k (map fst (combine keys vals)) -> In k (removelast keys).
Proof.
  induction keys as [|x keys IH]; intros vals k Hlen Hin; [destruct Hin|].
  destruct vals as [|v vals]; [destruct Hin|].
  cbn [length] in Hlen. destruct keys as [|y keys]; [cbn in Hlen; lia|].
  change (removelast (x :: y :: keys)) with (x :: removelast (y :: keys)).
  cbn [combine map fst] in Hin. destruct Hin as [<-|Hin]; [now left|right].
  apply (IH vals); [cbn [length] in Hlen |- *; lia|exact Hin].
Qed.

Lemma column_missing a dataset tup :
  In tup dataset -> getitem tup a = Raise KeyError ->
  column a dataset = Raise KeyError.
Proof.
  intros Hin Hget. destruct (column a dataset) as [vs|e] eqn:E.
  - apply column_has_key in E.
    destruct (proj1 (Forall_forall _ _) E tup Hin) as [v Hv]. congruence.
  - now rewrite (column_raise _ _ _ E).
Qed.

(** X15: a line with fewer fields than the first line leaves its record
    without the target, and [build_tree] then raises [KeyError] (the name
    of the target is not also the name of a header). *)
Theorem short_line_key_error (so : SetOrder) (first : string)
    (rest : list string) (line : string) :
  ~ In (last (fields first) EmptyString) (removelast (fields first)) ->
  In line rest ->
  length (fields line) < length (fields first) ->
  exists self,
    Dataset_init (first :: rest) true = Constructed self /\
    build_tree so self = Some (Raise KeyError).
Proof.
  intros Htgt Hin Hlen. rewrite Dataset_init_formatted. eexists.
  split; [reflexivity|]. unfold build_tree. cbn [data headers target].
  cbn [_id3].
  rewrite (column_missing _ _ (dict_zip (fields first) (fields line)));
    [reflexivity| |].
  - apply in_map_iff. now exists line.
  - unfold dict_zip. rewrite dict_fold_get; [reflexivity|].
    intros H. apply Htgt. exact (combine_short_keys _ _ _ Hlen H).
Qed.

Lemma short_line_key_error_witness :
  ~ In (last (fields (tsv_line ["A"; "T"])) EmptyString)
       (removelast (fields (tsv_line ["A"; "T"]))) /\
  In (tsv_line ["a2"]) (tl lines_short) /\
  length (fields (tsv_line ["a2"])) < length (fields (tsv_line ["A"; "T"])) /\
  exists self,
    Dataset_init lines_short true = Constructed self /\
    build_tree insertion_order self = Some (Raise KeyError).
Proof.
  assert (H1 : ~ In (last (fields (tsv_line ["A"; "T"])) EmptyString)
                    (removelast (fields (tsv_line ["A"; "T"])))).
  { vm_compute. intros [H|[]]. discriminate. }
  assert (H2 : In (tsv_line ["a2"]) (tl lines_short)).
  { right. left. reflexivity. }
  assert (H3 : length (fields (tsv_line ["a2"]))
               < length (fields (tsv_line ["A"; "T"]))).
  { vm_compute. lia. }
  split; [exact H1|]. split; [exact H2|]. split; [exact H3|].
  apply (short_line_key_error insertion_order (tsv_line ["A"; "T"])
                              (tl lines_short) (tsv_line ["a2"]) H1 H2 H3).
Defined.

(** X16: the constructor never returns with [is_formatted=False]: without
    lines it raises [IndexError], with lines [TypeError], since the
    headers stay [None]. *)
Theorem unformatted_never_loads (data_list : list string) :
  Dataset_init data_list false
  = match data_list with
    | [] => InitIndexError
    | _ :: _ => InitTypeError
    end
  /\ forall self, Dataset_init data_list false <> Constructed self.
Proof.
  assert (H : Dataset_init data_list false
              = match data_list with
                | [] => InitIndexError
                | _ :: _ => InitTypeError
                end).
  { destruct data_list as [|first [|line rest]]; reflexivity. }
  split; [exact H|]. intros self. rewrite H.
  destruct data_list; discriminate.
Qed.

(** ** The whole run *)

Lemma accuracy_with_tree so self t attrs :
  tree self = Some t -> ruleset self = None ->
  shaped (target self) attrs (data self) t ->
  keyed (target self :: attrs) (data self) ->
  data self <> [] ->
  exists a self',
    accuracy so self = Some (Ok (a, self')) /\ (0 <= a <= 1)%R.
Proof.
  intros Htree Hrs Hshape Hkeys Hne.
  destruct (rules_of_paths (target self) (paths t []) (shaped_last _ _ _ _ Hshape))
    as (rules & Hrules & Hfst & Hconcl).
  destruct (matching_partition rules (data self)) as (subsets & Hsubs & Hlen).
  { intros tup Hin.
    destruct (shaped_matches _ _ _ _ Hshape tup) as (bs & Hbs & Hone).
    - intros a Ha. apply (proj1 (Forall_forall _ _) Hkeys tup Hin). now right.
    - exists bs. split; [|now apply Hone].
      rewrite <- (mapM_map (eval_condition tup) fst rules), Hfst, mapM_map.
      exact Hbs. }
  assert (Hk : Forall (has_key (target self)) (data self)).
  { eapply keyed_has_key; eauto. now left. }
  destruct (total_correct_le self rules Hk subsets 0 Hsubs Hconcl)
    as (total & Htot & Hle).
  unfold accuracy, derive_ruleset.
  rewrite Hrs, Htree. cbn [fst snd]. rewrite Hrules. cbn [fst snd].
  unfold total_correct. cbn [data target]. rewrite Htot.
  destruct (data self) as [|t0 rest] eqn:Ed; [contradiction|].
  cbn [length]. eexists. eexists. split; [reflexivity|].
  assert (Hn : (0 < INR (S (length rest)))%R) by (apply lt_0_INR; lia).
  assert (Ht : (INR total <= INR (S (length rest)))%R).
  { apply le_INR. cbn [length] in Hlen. lia. }
  pose proof (pos_INR total). split.
  - apply Rmult_le_pos; [assumption|]. apply Rlt_le, Rinv_0_lt_compat. exact Hn.
  - apply (Rmult_le_reg_r (INR (S (length rest)))); [exact Hn|].
    unfold Rdiv. rewrite Rmult_assoc, Rinv_l by lra. lra.
Qed.

(** X17: [run_tree] on a file with a first line and at least one further
    line, each with at least as many fields as the first, loads the table,
    builds the tree and ends with a percentage between 0 and 100, whatever
    the order in which sets are iterated.  Python floats are read as real
    numbers. *)
Theorem run_tree_percentage (so : SetOrder) (first : string)
    (rest : list string) :
  rest <> [] ->
  (forall line, In line rest -> length (fields first) <= length (fields line)) ->
  exists percent,
    run_tree so (first :: rest) = Some (RanAccuracy percent) /\
    (0 <= percent <= 100)%R.
Proof.
  intros Hne Hlen. unfold run_tree. rewrite Dataset_init_formatted.
  set (self := mkDataset _ _ _ None None).
  assert (Hkeys : keyed (target self :: headers self) (data self))
    by now apply loaded_keyed.
  assert (Hdata : data self <> []).
  { cbn [self data]. destruct rest; [contradiction|discriminate]. }
  destruct (id3_valid_ok so self (target self) (headers self) (data self))
    as (t & attrs' & Hid3 & _ & Hshape); [split; exact Hkeys|exact Hdata|].
  unfold build_tree. rewrite Hid3. cbn [fst snd].
  destruct (accuracy_with_tree so
              (mkDataset (data self) attrs' (target self) (Some t) (ruleset self))
              t (headers self))
    as (a & self' & Ha & Hbounds);
    [reflexivity|reflexivity|exact Hshape|exact Hkeys|exact Hdata|].
  rewrite Ha. exists (a * 100)%R. split; [reflexivity|lra].
Qed.

Lemma run_tree_percentage_witness :
  tl lines_one_attr <> [] /\
  (forall line, In line (tl lines_one_attr) ->
     length (fields (tsv_line ["A"; "T"])) <= length (fields line)) /\
  exists percent,
    run_tree insertion_order lines_one_attr = Some (RanAccuracy percent) /\
    (0 <= percent <= 100)%R.
Proof.
  assert (H : forall line, In line (tl lines_one_attr) ->
              length (fields (tsv_line ["A"; "T"])) <= length (fields line)).
  { intros line [<-|[<-|[]]]; vm_compute; lia. }
  split; [discriminate|]. split; [exact H|].
  apply (run_tree_percentage insertion_order (tsv_line ["A"; "T"])
                             (tl lines_one_attr)); [discriminate|exact H].
Defined.

(** X18: a file without lines ends [run_tree] with [IndexError]; a file of
    a first line alone ends it with [ValueError] from [build_tree] when the
    line names the target only, and otherwise with [ZeroDivisionError] from
    [accuracy], after [build_tree] has returned. *)
Theorem run_tree_without_records (so : SetOrder) :
  run_tree so [] = Some RanIndexError /\
  forall first,
    run_tree so [first]
    = Some (RanRaised match removelast (fields first) with
                      | [] => ValueError
                      | _ :: _ => ZeroDivisionError
                      end).
Proof.
  split; [reflexivity|]. intros first. unfold run_tree.
  rewrite Dataset_init_formatted. unfold build_tree.
  cbn [map data headers target ruleset].
  destruct (removelast (fields first)) as [|a attrs].
  - cbn [length _id3].
    change (column (last (fields first) EmptyString) [])
      with (@Ok (list string) []).
    cbv beta iota. rewrite set_iter_nil. unfold most_common.
    rewrite set_iter_nil. reflexivity.
  - rewrite id3_empty by reflexivity. reflexivity.
Qed.

(** ** A header line that repeats a name *)

Lemma id3_twice (so : SetOrder) :
  _id3 so 3 table_twice "T" ["A"; "A"] (data table_twice)
  = Some (Ok (tree_twice, [])).
Proof.
  erewrite (id3_test so table_twice "T" 2 ["A"; "A"] _ _ _ "A");
    [|reflexivity|cbn; discriminate|discriminate|reflexivity|
     |reflexivity].
  2:{ cbn [max_by fold_left snd]. destruct (Rgtb _ _); reflexivity. }
  change (sorted (dict_keys ["1"; "1"; "1"])) with ["1"].
  erewrite branches_step; [reflexivity|reflexivity|].
  change (drop_attr "A" ["A"; "A"]) with ["A"].
  erewrite (id3_test so table_twice "T" 1 ["A"] _ _ _ "A");
    [|reflexivity|cbn; discriminate|discriminate|reflexivity|reflexivity
     |reflexivity].
  change (sorted (dict_keys ["1"; "1"; "1"])) with ["1"].
  erewrite branches_step; [reflexivity|reflexivity|].
  change (drop_attr "A" ["A"]) with (@nil string).
  erewrite id3_majority; [|reflexivity|cbn; discriminate].
  rewrite (most_common_winner so _ "y"); [reflexivity|cbn; tauto|].
  intros w [<-|[<-|[<-|[]]]] Hw; try congruence. cbn. lia.
Qed.

(** C9 fails as stated: the file [lines_twice], whose header line names
    [A] twice, is loaded as [table_twice], and the tree built from it tests
    [A], and below the value [1] tests [A] again. *)
Lemma duplicate_header_tested_twice :
  Dataset_init lines_twice true = Constructed table_twice /\
  build_tree insertion_order table_twice
  = Some (Ok (tree_twice,
              mkDataset (data table_twice) [] "T" (Some tree_twice) None)) /\
  paths tree_twice []
  = [[Name "A"; Name "1"; Name "A"; Name "1"; Label "T" "y"]] /\
  tests [Name "A"; Name "1"; Name "A"; Name "1"; Label "T" "y"]
  = [Name "A"; Name "A"] /\
  ~ NoDup (tests [Name "A"; Name "1"; Name "A"; Name "1"; Label "T" "y"]).
Proof.
  split; [reflexivity|]. split.
  { unfold build_tree.
    change (_id3 insertion_order (S (length (headers table_twice))) table_twice
              (target table_twice) (headers table_twice) (data table_twice))
      with (_id3 insertion_order 3 table_twice "T" ["A"; "A"] (data table_twice)).
    rewrite id3_twice. reflexivity. }
  split; [reflexivity|]. split; [reflexivity|].
  intros H. inversion H as [|x l Hx _]. apply Hx. now left.
Qed.

Lemma no_attribute_tested_twice_witness :
  NoDup ["X"; "Y"; "Z"] /\
  _id3 insertion_order 4 table_gain "T" ["X"; "Y"; "Z"] (data table_gain)
  = Some (Ok (tree_gain, [])) /\
  forall r, In r (paths tree_gain []) ->
    NoDup (tests r) /\
    forall x, In x (tests r) ->
      exists a, x = Name a /\ In a ["X"; "Y"; "Z"].
Proof.
  assert (Hnd : NoDup ["X"; "Y"; "Z"]).
  { repeat constructor; cbn; intuition discriminate. }
  split; [exact Hnd|]. split; [apply id3_table_gain|].
  apply (no_attribute_tested_twice insertion_order table_gain "T"
           ["X"; "Y"; "Z"] (data table_gain) 4 tree_gain []).
  - exact Hnd.
  - apply id3_table_gain.
Defined.

(** ** Rounding *)

Import PrimFloat.




